(** * Record tables of the data-engineering exercises

    A shallow embedding of the record operators of
    [Data_Cleaning_Validation.py], [SQL-like_Logic_in_Python.py],
    [PySpark-style_Thinking_Python-based.py],
    [Transformations_&_Aggregations.py], [TESTING_LOGGING_CONFIGS.py] and
    [Python_Basics_for_Data_Engineers.py], with the properties the
    specification states about them.

    Python dictionaries are finite maps ([gmap]), lists are lists, and a
    call that can raise returns a [result]. *)

From Stdlib Require Import ZArith String Ascii.
From Stdlib Require Import Floats.SpecFloat.
From stdpp Require Import base option list gmap strings sorting.

Local Open Scope string_scope.
Local Open Scope Z_scope.

(** ** Exceptions and results *)

(** The exceptions the modelled functions can raise. *)
Inductive exn :=
  | TypeError
  | KeyError
  | ValueError
  | ZeroDivisionError
  | OverflowError.

#[global] Instance exn_eq_dec : EqDecision exn.
Proof. solve_decision. Defined.

(** The outcome of a call: a returned value or a raised exception. *)
Inductive result (A : Type) :=
  | Ok (a : A)
  | Raise (e : exn).
Arguments Ok {A} a.
Arguments Raise {A} e.

#[global] Instance result_ret : MRet result := λ A a, Ok a.
#[global] Instance result_bind : MBind result := λ A B k m,
  match m with
  | Ok a => k a
  | Raise e => Raise e
  end.
#[global] Instance result_fmap : FMap result := λ A B f m,
  match m with
  | Ok a => Ok (f a)
  | Raise e => Raise e
  end.

(** [try: m except e: h]: the handler runs when [m] raises [e]; any other
    exception propagates. *)
Definition try_except {A} (m : result A) (e : exn) (h : result A) : result A :=
  match m with
  | Ok a => Ok a
  | Raise e' => if decide (e' = e) then h else Raise e'
  end.

(** The call returns, it does not raise. *)
Definition returns {A} (m : result A) : Prop := ∃ a, m = Ok a.

(** ** Values, records and tables *)

(** The scalar field values of a record: [None], booleans, integers of any
    size and text.  Text is a byte string; comparing byte strings
    lexicographically orders UTF-8 text by code point, as Python does.  A
    [float] is not among these values: what is proved of records and of
    lists of values is proved of records and lists without floats. *)
Inductive value :=
  | VNone
  | VBool (b : bool)
  | VInt (n : Z)
  | VStr (s : string).

(** The class of a value under Python's [==] and [hash]: [True == 1] and
    [False == 0], everything else is equal only to itself.  A [dict] or
    [set] keeps one entry per class. *)
Inductive hkey :=
  | KNone
  | KNum (n : Z)
  | KStr (s : string).

Definition key_of (v : value) : hkey :=
  match v with
  | VNone => KNone
  | VBool b => KNum (if b then 1 else 0)
  | VInt n => KNum n
  | VStr s => KStr s
  end.

#[global] Instance value_eq_dec : EqDecision value.
Proof. solve_decision. Defined.

#[global] Instance hkey_eq_dec : EqDecision hkey.
Proof. solve_decision. Defined.

#[global] Instance hkey_countable : Countable hkey.
Proof.
  refine (inj_countable'
    (λ k, match k with
          | KNone => inl ()
          | KNum n => inr (inl n)
          | KStr s => inr (inr s)
          end)
    (λ c, match c with
          | inl _ => KNone
          | inr (inl n) => KNum n
          | inr (inr s) => KStr s
          end) _).
  by intros [].
Defined.

(** [a == b] *)
Definition py_eq (a b : value) : bool := bool_decide (key_of a = key_of b).

(** A record is a [dict] from field names to values, a table a list of
    records. *)
Abbreviation record := (gmap string value).
Abbreviation table := (list (gmap string value)).

(** [record.get(field)]: [None] when the field is absent. *)
Definition get (r : record) (field : string) : value :=
  default VNone (r !! field).

(** [record[field]]: [KeyError] when the field is absent. *)
Definition getitem (r : record) (field : string) : result value :=
  match r !! field with
  | Some v => Ok v
  | None => Raise KeyError
  end.

(** The class of the value [record.get(field)]. *)
Definition field_key (field : string) (r : record) : hkey :=
  key_of (get r field).

(** ** Built-ins and library calls *)

(** [a < b] on these values: integers ([bool] is a subclass of [int])
    compare by value, text compares lexicographically, and every other pair,
    [None] included, is not orderable. *)
Definition py_lt (a b : value) : result bool :=
  match key_of a, key_of b with
  | KNum x, KNum y => Ok (x <? y)
  | KStr s, KStr t => Ok (String.ltb s t)
  | _, _ => Raise TypeError
  end.

(** [sorted(items, key=key, reverse=reverse)].  The built-in is a stable sort
    that compares the keys with [<] only, and for [reverse=True] reverses the
    list, sorts it and reverses the result, which keeps equal keys in input
    order.  It is modelled by the stable insertion sort: on the values above
    every stable sort returns the same list and raises on the same inputs
    (two keys that are not orderable, as soon as there is anything to
    compare). *)
Section sorted.
Context {A : Type} (key : A → value).

Fixpoint sorted_insert (x : A) (l : list A) : result (list A) :=
  match l with
  | [] => Ok [x]
  | y :: l' =>
      b ← py_lt (key y) (key x);
      if b : bool then l'' ← sorted_insert x l'; mret (y :: l'')
      else mret (x :: y :: l')
  end.

Fixpoint sorted_asc (l : list A) : result (list A) :=
  match l with
  | [] => Ok []
  | x :: l' => s ← sorted_asc l'; sorted_insert x s
  end.

Definition sorted (items : list A) (reverse : bool) : result (list A) :=
  if reverse
  then list.reverse <$> sorted_asc (list.reverse items)
  else sorted_asc items.
End sorted.

(** *** [re.match] *)

(** The regular expressions of [re] that the validators use. *)
Inductive regex :=
  | Void
  | Eps
  | Class (p : ascii → bool)
  | Cat (r1 r2 : regex)
  | Alt (r1 r2 : regex)
  | Star (r : regex).

Definition Plus (r : regex) : regex := Cat r (Star r).

Fixpoint nullable (r : regex) : bool :=
  match r with
  | Void => false
  | Eps => true
  | Class _ => false
  | Cat r1 r2 => nullable r1 && nullable r2
  | Alt r1 r2 => nullable r1 || nullable r2
  | Star _ => true
  end.

Fixpoint deriv (c : ascii) (r : regex) : regex :=
  match r with
  | Void | Eps => Void
  | Class p => if p c then Eps else Void
  | Cat r1 r2 =>
      if nullable r1 then Alt (Cat (deriv c r1) r2) (deriv c r2)
      else Cat (deriv c r1) r2
  | Alt r1 r2 => Alt (deriv c r1) (deriv c r2)
  | Star r1 => Cat (deriv c r1) (Star r1)
  end.

(** [bool(re.match(r, s))]: some prefix of [s] matches [r]. *)
Fixpoint re_match (r : regex) (s : string) : bool :=
  nullable r ||
  match s with
  | EmptyString => false
  | String c s' => re_match (deriv c r) s'
  end.

(** *** [datetime.strptime(date_str, "%Y-%m-%d")] *)

(** [strptime] matches the text against a pattern in which [\d] stands for
    every decimal digit of Unicode.  On ASCII text these are the ten
    characters ["0"] to ["9"], and the parse is written out below.  On text
    with a character outside ASCII the parse is not modelled: its outcome, a
    date or the [ValueError] of a failed parse, is the argument
    [parse_other] of [datetime_strptime]. *)
Definition is_ascii (c : ascii) : bool := (N_of_ascii c <? 128)%N.

Fixpoint is_ascii_text (s : string) : bool :=
  match s with
  | EmptyString => true
  | String c s' => is_ascii c && is_ascii_text s'
  end.

(** [\d] on an ASCII character. *)
Definition is_digit (c : ascii) : bool :=
  let n := N_of_ascii c in ((48 <=? n) && (n <=? 57))%N.

Definition digit (c : ascii) : Z := Z.of_N (N_of_ascii c) - 48.

Definition in_range (lo hi : Z) (c : ascii) : bool :=
  is_digit c && (lo <=? digit c) && (digit c <=? hi).

(** [%Y]: four digits. *)
Definition match_Y (s : string) : option (Z * string) :=
  match s with
  | String a (String b (String c (String d rest))) =>
      if is_digit a && is_digit b && is_digit c && is_digit d
      then Some (1000 * digit a + 100 * digit b + 10 * digit c + digit d, rest)
      else None
  | _ => None
  end.

(** [%m]: [1[0-2]|0[1-9]|[1-9]], the alternatives tried in this order. *)
Definition match_m (s : string) : option (Z * string) :=
  match s with
  | String a rest =>
      match rest with
      | String b rest' =>
          if Ascii.eqb a "1" && in_range 0 2 b then Some (10 + digit b, rest')
          else if Ascii.eqb a "0" && in_range 1 9 b then Some (digit b, rest')
          else if in_range 1 9 a then Some (digit a, rest)
          else None
      | EmptyString => if in_range 1 9 a then Some (digit a, rest) else None
      end
  | EmptyString => None
  end.

(** [%d]: [3[0-1]|[1-2]\d|0[1-9]|[1-9]| [1-9]], the alternatives tried in
    this order. *)
Definition match_d (s : string) : option (Z * string) :=
  match s with
  | String a rest =>
      match rest with
      | String b rest' =>
          if Ascii.eqb a "3" && in_range 0 1 b then Some (30 + digit b, rest')
          else if in_range 1 2 a && is_digit b
               then Some (10 * digit a + digit b, rest')
          else if Ascii.eqb a "0" && in_range 1 9 b then Some (digit b, rest')
          else if in_range 1 9 a then Some (digit a, rest)
          else if Ascii.eqb a " " && in_range 1 9 b then Some (digit b, rest')
          else None
      | EmptyString => if in_range 1 9 a then Some (digit a, rest) else None
      end
  | EmptyString => None
  end.

Definition match_dash (s : string) : option string :=
  match s with
  | String c rest => if Ascii.eqb c "-" then Some rest else None
  | EmptyString => None
  end.

Definition is_leap (y : Z) : bool :=
  (y mod 4 =? 0) && (negb (y mod 100 =? 0) || (y mod 400 =? 0)).

Definition days_in_month (y m : Z) : Z :=
  if m =? 2 then (if is_leap y then 29 else 28)
  else if (m =? 4) || (m =? 6) || (m =? 9) || (m =? 11) then 30
  else 31.

(** The parse of an ASCII text: the text is matched against the format,
    nothing may remain after the match, and the fields must make a date of
    the calendar; each failure is a [ValueError]. *)
Definition strptime_ymd (s : string) : result (Z * Z * Z) :=
  match
    '(y, s1) ← match_Y s; s2 ← match_dash s1;
    '(m, s3) ← match_m s2; s4 ← match_dash s3;
    '(d, s5) ← match_d s4; Some (y, m, d, s5)
  with
  | None => Raise ValueError
  | Some (y, m, d, rest) =>
      if negb (String.eqb rest "") then Raise ValueError
      else if (1 <=? y) && (1 <=? d) && (d <=? days_in_month y m)
           then Ok (y, m, d)
      else Raise ValueError
  end.

(** An argument that is not a [str] is a [TypeError]; a text parses to a
    date or fails with [ValueError]. *)
Definition datetime_strptime (parse_other : string → option (Z * Z * Z))
    (date_str : value) : result (Z * Z * Z) :=
  match date_str with
  | VStr s =>
      if is_ascii_text s then strptime_ymd s
      else match parse_other s with
           | Some date => Ok date
           | None => Raise ValueError
           end
  | _ => Raise TypeError
  end.

(** *** True division *)

(** A [float] is an IEEE 754 binary64 number. *)
Abbreviation float := spec_float.

Definition float_of_int (n : Z) : float :=
  match n with
  | Z0 => S754_zero false
  | Zpos p => S754_finite false p 0
  | Zneg p => S754_finite true p 0
  end.

(** [a / b] on integers: [ZeroDivisionError] for a zero divisor, tested
    first; otherwise the quotient rounded to the nearest [float], and
    [OverflowError] when it is out of range. *)
Definition int_truediv (a b : Z) : result float :=
  if b =? 0 then Raise ZeroDivisionError
  else match SFdiv 53 1024 (float_of_int a) (float_of_int b) with
       | S754_infinity _ => Raise OverflowError
       | q => Ok q
       end.

(** A number: an [int] ([bool] included, [True] being [1] and [False]
    [0]) or a [float]. *)
Inductive number :=
  | NInt (n : Z)
  | NFloat (f : float).

(** The conversion of an [int] operand to [float]: the nearest [float],
    ties to even, and [OverflowError] when the integer is out of range. *)
Definition int_to_float (n : Z) : result float :=
  match binary_normalize 53 1024 n 0 false with
  | S754_infinity _ => Raise OverflowError
  | x => Ok x
  end.

Definition to_float (a : number) : result float :=
  match a with
  | NInt n => int_to_float n
  | NFloat x => Ok x
  end.

(** [x == 0.0], which holds of both zeros. *)
Definition float_is_zero (x : float) : bool :=
  match x with
  | S754_zero _ => true
  | _ => false
  end.

(** [b == 0] *)
Definition number_is_zero (b : number) : bool :=
  match b with
  | NInt n => n =? 0
  | NFloat x => float_is_zero x
  end.

(** [a / b] on numbers.  Two integers are divided as integers.  Otherwise
    [a], then [b], is converted to [float], which raises [OverflowError] on
    an integer out of range, and only then is the divisor tested:
    [ZeroDivisionError] when it is zero, else the IEEE 754 quotient, which
    can be an infinity or a NaN and is returned as such. *)
Definition py_truediv (a b : number) : result float :=
  match a, b with
  | NInt m, NInt n => int_truediv m n
  | _, _ =>
      x ← to_float a;
      y ← to_float b;
      if float_is_zero y then Raise ZeroDivisionError
      else Ok (SFdiv 53 1024 x y)
  end.

(** [re.match(r, text)] as a truth value; an argument that is not a [str]
    is a [TypeError]. *)
Definition re_match_call (r : regex) (text : value) : result bool :=
  match text with
  | VStr s => Ok (re_match r s)
  | _ => Raise TypeError
  end.

(** [record.get(field, default)] *)
Definition get_default (r : record) (field : string) (d : value) : value :=
  default d (r !! field).

(** [{r[join_key]: r for r in right}]: the records are entered in table
    order, a later record replacing an earlier one with an equal key; a
    record without the key raises [KeyError]. *)
Fixpoint right_lookup_from (right : table) (join_key : string)
    (acc : gmap hkey record) : result (gmap hkey record) :=
  match right with
  | [] => Ok acc
  | r :: rest =>
      v ← getitem r join_key;
      right_lookup_from rest join_key (<[key_of v := r]> acc)
  end.

Definition right_lookup_of (right : table) (join_key : string)
    : result (gmap hkey record) :=
  right_lookup_from right join_key ∅.

(** [{**left, **right}], and [left.copy()] updated with [right]: the fields
    of both, a field of both with the value of [right]. *)
Definition merged (left right : record) : record := right ∪ left.

(** [a > b]: for integers and for text it is [b < a]. *)
Definition py_gt (a b : value) : result bool := py_lt b a.

(** [acc + v] for an [int] accumulator and one of these values: an integer,
    a boolean included, is added in exact integer arithmetic; [None] and text
    are a [TypeError]. *)
Definition py_add_int (acc : Z) (v : value) : result Z :=
  match key_of v with
  | KNum n => Ok (acc + n)
  | KNone | KStr _ => Raise TypeError
  end.

(** [[x for x in items if cond(x)]] where the condition can raise. *)
Fixpoint filter_raising {A} (cond : A → result bool) (items : list A)
    : result (list A) :=
  match items with
  | [] => Ok []
  | x :: rest =>
      b ← cond x;
      kept ← filter_raising cond rest;
      mret (if b : bool then x :: kept else kept)
  end.

(** [min(values)] and [max(values)] on a list of integers: [ValueError] on
    an empty list. *)
Definition py_min (values : list Z) : result Z :=
  match values with
  | [] => Raise ValueError
  | v :: rest => Ok (foldl Z.min v rest)
  end.

Definition py_max (values : list Z) : result Z :=
  match values with
  | [] => Raise ValueError
  | v :: rest => Ok (foldl Z.max v rest)
  end.


(** [[f(x) for x in items]] where [f] can raise. *)
Fixpoint map_raising {A B} (f : A → result B) (items : list A)
    : result (list B) :=
  match items with
  | [] => Ok []
  | x :: rest => y ← f x; ys ← map_raising f rest; mret (y :: ys)
  end.

(** [sorted(items, key=key, reverse=reverse)] for a key function that can
    raise: the keys of all items are computed first, then the items are
    sorted by them. *)
Definition sorted_by {A} (key : A → result value) (items : list A)
    (reverse : bool) : result (list A) :=
  keys ← map_raising key items;
  decorated ← sorted snd (zip items keys) reverse;
  mret (decorated.*1).

(** [a // b] on integers: the floor of the quotient, [ZeroDivisionError] for
    a zero divisor. *)
Definition py_floordiv (a b : Z) : result Z :=
  if b =? 0 then Raise ZeroDivisionError else Ok (a `div` b).

(** ** Data_Cleaning_Validation.py *)

Module Cleaning.

(** [remove_null_records]: the loop appends a record when
    [record.get(field) is not None]. *)
Fixpoint remove_null_records (records : table) (field : string) : table :=
  match records with
  | [] => []
  | record :: rest =>
      if decide (get record field ≠ VNone)
      then record :: remove_null_records rest field
      else remove_null_records rest field
  end.

(** [remove_duplicates]: the loop carries the set [seen_keys]; a record whose
    [record.get(unique_key)] is not in it is appended and its key added. *)
Fixpoint remove_duplicates_loop (records : table) (unique_key : string)
    (seen_keys : gset hkey) : table :=
  match records with
  | [] => []
  | record :: rest =>
      let key_value := get record unique_key in
      if decide (key_of key_value ∉ seen_keys)
      then record ::
           remove_duplicates_loop rest unique_key ({[key_of key_value]} ∪ seen_keys)
      else remove_duplicates_loop rest unique_key seen_keys
  end.

Definition remove_duplicates (records : table) (unique_key : string) : table :=
  remove_duplicates_loop records unique_key ∅.

(** [is_numeric]: [isinstance(value, (int, float))]; [bool] is a subclass of
    [int]. *)
Definition is_numeric (v : value) : bool :=
  match v with
  | VBool _ | VInt _ => true
  | VNone | VStr _ => false
  end.

(** [validate_date_format]: [True] when [strptime] returns, [False] when it
    raises [ValueError]. *)
Definition validate_date_format (parse_other : string → option (Z * Z * Z))
    (date_str : value) : result bool :=
  try_except (_ ← datetime_strptime parse_other date_str; mret true)
             ValueError (mret false).

(** The pattern [[^@]+@[^@]+\.[^@]+]. *)
Definition not_at : regex := Class (λ c, negb (Ascii.eqb c "@")).
Definition email_pattern : regex :=
  Cat (Plus not_at)
    (Cat (Class (Ascii.eqb "@"))
       (Cat (Plus not_at) (Cat (Class (Ascii.eqb ".")) (Plus not_at)))).

(** [validate_email]: [bool(re.match(pattern, email))]. *)
Definition validate_email (email : value) : result bool :=
  re_match_call email_pattern email.

(** [replace_missing_with_zero] *)
Definition replace_missing_with_zero (values : list value) : list value :=
  (λ v, if decide (v ≠ VNone) then v else VInt 0) <$> values.

(** [fill_missing_fields]: [record.setdefault(key, default_value)] for every
    item of [defaults]; the record is changed in place and returned. *)
Definition fill_missing_fields (record defaults : gmap string value)
    : gmap string value :=
  map_fold (λ key default_value (filled : gmap string value),
              match filled !! key with
              | Some _ => filled
              | None => <[key := default_value]> filled
              end) record defaults.

(** [remove_empty_strings]: the values with [value != ""]. *)
Definition remove_empty_strings (values : list value) : list value :=
  filter (λ v, py_eq v (VStr "") = false) values.

(** [validate_schema]: every record has the key set of the first. *)
Definition validate_schema (records : table) : bool :=
  match records with
  | [] => true
  | first :: _ =>
      forallb (λ record, bool_decide (dom record = dom first)) records
  end.

(** [isinstance(v, int)]; [bool] is a subclass of [int]. *)
Definition isinstance_int (v : value) : bool :=
  match v with
  | VBool _ | VInt _ => true
  | VNone | VStr _ => false
  end.

(** [remove_invalid_ids]: the records whose [record.get(id_field)] is an
    instance of [int]. *)
Definition remove_invalid_ids (records : table) (id_field : string) : table :=
  filter (λ record, isinstance_int (get record id_field) = true) records.

(** [detect_outliers]: the values with [value > threshold]. *)
Definition detect_outliers (values : list value) (threshold : value)
    : result (list value) :=
  filter_raising (λ v, py_gt v threshold) values.

(** [validate_mandatory_fields] *)
Definition validate_mandatory_fields (record : gmap string value)
    (required_fields : gset string) : bool :=
  bool_decide (required_fields ⊆ dom record).

End Cleaning.

(** ** SQL-like_Logic_in_Python.py *)

Module SQL.

(** [order_by] *)
Definition order_by (records : table) (field : string) (ascending : bool)
    : result table :=
  sorted (λ x, get x field) records (negb ascending).

(** The loop of [inner_join]: a left record whose [record.get(join_key)] is a
    key of [right_lookup] is appended merged with the record found. *)
Fixpoint inner_join_loop (left : table) (right_lookup : gmap hkey record)
    (join_key : string) : table :=
  match left with
  | [] => []
  | record :: rest =>
      let key_value := get record join_key in
      match right_lookup !! key_of key_value with
      | Some r => merged record r :: inner_join_loop rest right_lookup join_key
      | None => inner_join_loop rest right_lookup join_key
      end
  end.

Definition inner_join (left right : table) (join_key : string) : result table :=
  right_lookup ← right_lookup_of right join_key;
  mret (inner_join_loop left right_lookup join_key).

(** The loop of [left_join]: every left record is appended, updated with
    [right_lookup.get(record.get(join_key), {})]. *)
Fixpoint left_join_loop (left : table) (right_lookup : gmap hkey record)
    (join_key : string) : table :=
  match left with
  | [] => []
  | record :: rest =>
      merged record (default ∅ (right_lookup !! key_of (get record join_key)))
      :: left_join_loop rest right_lookup join_key
  end.

Definition left_join (left right : table) (join_key : string) : result table :=
  right_lookup ← right_lookup_of right join_key;
  mret (left_join_loop left right_lookup join_key).

(** [select_columns]: for every record a new one with [record.get(column)]
    under each requested column. *)
Definition select_columns (records : table) (columns : list string) : table :=
  (λ record : gmap string value,
     foldl (λ (selected : gmap string value) column,
              <[column := get record column]> selected) ∅ columns)
  <$> records.

(** [where_filter]: the records with [record.get(field) == value]. *)
Definition where_filter (records : table) (field : string) (v : value) : table :=
  filter (λ record, py_eq (get record field) v = true) records.

(** [where_greater_than]: the records with
    [record.get(field, 0) > threshold]. *)
Definition where_greater_than (records : table) (field : string)
    (threshold : value) : result table :=
  filter_raising
    (λ record, py_gt (get_default record field (VInt 0)) threshold) records.

(** [group_by_count]: [counts] is a [defaultdict(int)]. *)
Fixpoint group_by_count_from (records : table) (group_field : string)
    (counts : gmap hkey Z) : result (gmap hkey Z) :=
  match records with
  | [] => Ok counts
  | record :: rest =>
      v ← getitem record group_field;
      group_by_count_from rest group_field
        (<[key_of v := default 0 (counts !! key_of v) + 1]> counts)
  end.

Definition group_by_count (records : table) (group_field : string)
    : result (gmap hkey Z) :=
  group_by_count_from records group_field ∅.



(** [having_filter]: the groups whose value is above the threshold. *)
Definition having_filter (grouped_data : gmap hkey Z) (threshold : Z)
    : gmap hkey Z :=
  filter (λ kv, threshold < kv.2) grouped_data.

End SQL.

(** ** PySpark-style_Thinking_Python-based.py *)

Module PySpark.

(** [df_order_by] *)
Definition df_order_by (records : table) (field : string) (ascending : bool)
    : result table :=
  sorted (λ x, get x field) records (negb ascending).

(** [df_select] *)
Definition df_select (records : table) (columns : list string) : table :=
  (λ record : gmap string value,
     foldl (λ (selected : gmap string value) col, <[col := get record col]> selected)
           ∅ columns)
  <$> records.

(** [df_filter] *)
Definition df_filter (records : table) (field : string) (threshold : value)
    : result table :=
  filter_raising
    (λ record, py_gt (get_default record field (VInt 0)) threshold) records.

(** The functions below change the records in place and return the list
    they were given: the table returned is also what the caller's table has
    become.  The records of a table are distinct objects. *)

(** [df_drop]: [record.pop(column, None)] on every record. *)
Definition df_drop (records : table) (column : string) : table :=
  (λ record : gmap string value, delete column record) <$> records.

(** [df_rename_column]: [record[new_name] = record.pop(old_name)] on every
    record in turn; [pop] raises [KeyError] on a record without [old_name].
    The first component is the table after the call, the records before the
    failing one renamed; the second is how the call ends. *)
Fixpoint df_rename_column (records : table) (old_name new_name : string)
    : table * result () :=
  match records with
  | [] => ([], Ok ())
  | record :: rest =>
      match record !! old_name with
      | Some v =>
          let '(rest', outcome) := df_rename_column rest old_name new_name in
          (<[new_name := v]> (delete old_name record) :: rest', outcome)
      | None => (record :: rest, Raise KeyError)
      end
  end.

(** [df_fill_na]: a record whose [record.get(field)] is [None] gets the
    default under [field]. *)
Definition df_fill_na (records : table) (field : string) (default_value : value)
    : table :=
  (λ record : gmap string value,
     if decide (get record field = VNone)
     then <[field := default_value]> record else record)
  <$> records.


End PySpark.

(** ** Transformations_&_Aggregations.py *)

Module Transformations.

(** [calculate_average] on a list of integers: [0] for an empty list,
    otherwise [sum(values) / len(values)]. *)
Definition calculate_average (values : list Z) : result number :=
  match values with
  | [] => Ok (NInt 0)
  | _ => NFloat <$> int_truediv (foldl Z.add 0 values) (Z.of_nat (length values))
  end.

(** [sort_records_by_field]: the key is [x.get(field, 0)]. *)
Definition sort_records_by_field (records : table) (field : string)
    : result table :=
  sorted (λ x, get_default x field (VInt 0)) records false.

(** The loop of [inner_join]: the key of a left record is read with [l[key]]. *)
Fixpoint inner_join_loop (left : table) (right_lookup : gmap hkey record)
    (key : string) : result table :=
  match left with
  | [] => Ok []
  | l :: rest =>
      v ← getitem l key;
      match right_lookup !! key_of v with
      | Some r =>
          joined ← inner_join_loop rest right_lookup key;
          mret (merged l r :: joined)
      | None => inner_join_loop rest right_lookup key
      end
  end.

Definition inner_join (left right : table) (key : string) : result table :=
  right_lookup ← right_lookup_of right key;
  inner_join_loop left right_lookup key.

(** [calculate_total_sales]: [total] starts at [0] and every
    [transaction.get("amount", 0)] is added to it. *)
Fixpoint calculate_total_sales_from (transactions : table) (total : Z)
    : result Z :=
  match transactions with
  | [] => Ok total
  | transaction :: rest =>
      total' ← py_add_int total (get_default transaction "amount" (VInt 0));
      calculate_total_sales_from rest total'
  end.

Definition calculate_total_sales (transactions : table) : result Z :=
  calculate_total_sales_from transactions 0.

(** [group_records_by_key]: [grouped] is a [defaultdict(list)]. *)
Fixpoint group_records_by_key_from (records : table) (key : string)
    (grouped : gmap hkey table) : result (gmap hkey table) :=
  match records with
  | [] => Ok grouped
  | record :: rest =>
      v ← getitem record key;
      group_records_by_key_from rest key
        (<[key_of v := (default [] (grouped !! key_of v) ++ [record])%list]> grouped)
  end.

Definition group_records_by_key (records : table) (key : string)
    : result (gmap hkey table) :=
  group_records_by_key_from records key ∅.

(** [filter_records_by_threshold] *)
Definition filter_records_by_threshold (records : table) (field : string)
    (threshold : value) : result table :=
  filter_raising
    (λ record, py_gt (get_default record field (VInt 0)) threshold) records.

(** [normalize_values] on a list of integers: [min] and [max] first, then
    for every value [(v - min_val) / (max_val - min_val)], or [0] when
    [max_val] equals [min_val]. *)
Definition normalize_values (values : list Z) : result (list number) :=
  min_val ← py_min values;
  max_val ← py_max values;
  map_raising
    (λ v, if decide (max_val ≠ min_val)
          then NFloat <$> int_truediv (v - min_val) (max_val - min_val)
          else Ok (NInt 0)) values.



(** [rank_records]: the records sorted by [x[field]], largest first, each
    given its position, from [1], under ["rank"].  The records are changed in
    place; they are distinct objects. *)
Definition rank_records (records : table) (field : string) : result table :=
  sorted_records ← sorted_by (λ x, getitem x field) records true;
  mret (imap (λ index (record : gmap string value),
                <["rank" := VInt (Z.of_nat index + 1)]> record)
             sorted_records).

(** [bucketize_values] on a list of integers with an integer bucket size:
    [buckets] is a [defaultdict(list)], the key of a value is
    [(value // bucket_size) * bucket_size]. *)
Fixpoint bucketize_values_from (values : list Z) (bucket_size : Z)
    (buckets : gmap Z (list Z)) : result (gmap Z (list Z)) :=
  match values with
  | [] => Ok buckets
  | v :: rest =>
      q ← py_floordiv v bucket_size;
      let bucket_key := q * bucket_size in
      bucketize_values_from rest bucket_size
        (<[bucket_key := (default [] (buckets !! bucket_key) ++ [v])%list]> buckets)
  end.

Definition bucketize_values (values : list Z) (bucket_size : Z)
    : result (gmap Z (list Z)) :=
  bucketize_values_from values bucket_size ∅.



(** [count_records_by_group]: the loop of [group_by_count]. *)
Definition count_records_by_group (records : table) (group_key : string)
    : result (gmap hkey Z) :=
  SQL.group_by_count_from records group_key ∅.

End Transformations.

(** ** TESTING_LOGGING_CONFIGS.py *)

Module Testing.

(** [safe_division]: the quotient, or [None] with an error message logged
    when the division raises [ZeroDivisionError].  The first component is
    what the call logs. *)
Definition safe_division (a b : number)
    : list string * result (option float) :=
  match py_truediv a b with
  | Ok q => ([], Ok (Some q))
  | Raise ZeroDivisionError => (["Division by zero error occurred"], Ok None)
  | Raise e => ([], Raise e)
  end.

(** [threshold_filter] *)
Definition threshold_filter (values : list value) (threshold : value)
    : result (list value) :=
  filter_raising (λ v, py_gt v threshold) values.

End Testing.

(** ** Python_Basics_for_Data_Engineers.py *)

Module Basics.

(** [remove_duplicate_records]: as [remove_duplicates] with the key
    ["customer_id"], read with [record["customer_id"]]. *)
Fixpoint remove_duplicate_records_loop (records : table) (seen_ids : gset hkey)
    : result table :=
  match records with
  | [] => Ok []
  | record :: rest =>
      id ← getitem record "customer_id";
      if decide (key_of id ∉ seen_ids)
      then unique_records ←
             remove_duplicate_records_loop rest ({[key_of id]} ∪ seen_ids);
           mret (record :: unique_records)
      else remove_duplicate_records_loop rest seen_ids
  end.

Definition remove_duplicate_records (records : table) : result table :=
  remove_duplicate_records_loop records ∅.

(** [filter_transactions]: the amount is read with [t["amount"]]. *)
Definition filter_transactions (transactions : table) (threshold : value)
    : result table :=
  filter_raising (λ t, v ← getitem t "amount"; py_gt v threshold) transactions.

(** [sort_records_by_timestamp]: the key is [x["timestamp"]]. *)
Definition sort_records_by_timestamp (records : table) : result table :=
  sorted_by (λ x, getitem x "timestamp") records false.

(** [validate_records]: [False] at the first record without one of the
    required fields. *)
Definition validate_records (records : table) : bool :=
  let required_fields : gset string := {[ "id"; "name"; "created_date" ]} in
  forallb (λ record : gmap string value,
             bool_decide (required_fields ⊆ dom record)) records.


(** [count_by_category]: the loop of [group_by_count] on ["category"]. *)
Definition count_by_category (records : table) : result (gmap hkey Z) :=
  SQL.group_by_count_from records "category" ∅.

End Basics.

(** ** Notions of the specification *)

(** The record has the field [k]. *)
Definition has_field (k : string) (r : record) : Prop := is_Some (r !! k).

#[global] Instance has_field_dec k r : Decision (has_field k r).
Proof. unfold has_field. apply _. Defined.

(** The value of the left record [l] at [k] appears as the value at [k] of a
    record of [R]. *)
Definition matches_in (R : table) (k : string) (l : record) : Prop :=
  Exists (λ r, field_key k r = field_key k l) R.

#[global] Instance matches_in_dec R k l : Decision (matches_in R k l).
Proof. unfold matches_in. apply _. Defined.

(** The last record of [R] whose value at [k] is in the class [κ]. *)
Definition last_with_key (R : table) (k : string) (κ : hkey) : option record :=
  last (filter (λ r, field_key k r = κ) R).

(** The kinds of values that [<] tells apart: two values are orderable when
    both are integers (booleans included) or both are text. *)
Inductive kind := NoneKind | NumKind | StrKind.

#[global] Instance kind_eq_dec : EqDecision kind.
Proof. solve_decision. Defined.

Definition kind_of (v : value) : kind :=
  match key_of v with
  | KNone => NoneKind
  | KNum _ => NumKind
  | KStr _ => StrKind
  end.

(** The keys of [l] are all of the orderable kind [c]. *)
Definition same_kind {A} (key : A → value) (c : kind) (l : list A) : Prop :=
  c ≠ NoneKind ∧ Forall (λ x, kind_of (key x) = c) l.

(** [a] may stand before [b] in ascending order: [b < a] is false. *)
Definition key_le (a b : value) : Prop := py_lt b a = Ok false.

(** The records of [T] in ascending order of the value at [f]. *)
Definition ascending_by (f : string) (T : table) : Prop :=
  StronglySorted (λ r1 r2, key_le (get r1 f) (get r2 f)) T.

(** The records of [T] in descending order of the value at [f]. *)
Definition descending_by (f : string) (T : table) : Prop :=
  StronglySorted (λ r1 r2, key_le (get r2 f) (get r1 f)) T.

(** The integer a record counts with at the field [f] where the code reads
    [record.get(f, 0)]: the value of the field, [0] for a record without
    the field. *)
Definition field_number (f : string) (r : record) : Z :=
  match key_of (get_default r f (VInt 0)) with
  | KNum n => n
  | KNone | KStr _ => 0
  end.

(** The field [f] of the record is absent or holds an integer, a boolean
    included. *)
Definition number_or_absent (f : string) (r : record) : Prop :=
  kind_of (get_default r f (VInt 0)) = NumKind.

#[global] Instance number_or_absent_dec f r : Decision (number_or_absent f r).
Proof. unfold number_or_absent. apply _. Defined.

(** The field [f] of the record is present and holds an integer, a boolean
    included. *)
Definition holds_int (f : string) (r : record) : Prop :=
  match r !! f with
  | Some (VInt _) | Some (VBool _) => True
  | Some VNone | Some (VStr _) | None => False
  end.

#[global] Instance holds_int_dec f r : Decision (holds_int f r).
Proof. unfold holds_int. destruct (r !! f) as [[]|]; apply _. Defined.

(** The sum of a list of integers. *)
Definition sum_list_Z (l : list Z) : Z := foldr Z.add 0 l.

(** The integer a value counts with: its own when it is an integer, [0]
    otherwise. *)
Definition value_number (v : value) : Z :=
  match key_of v with
  | KNum n => n
  | KNone | KStr _ => 0
  end.

(** A record with the field [old_name] renamed to [new_name]. *)
Definition renamed (old_name new_name : string) (r : record) : record :=
  <[new_name := get r old_name]> (delete old_name r).

(** The texts a regular expression matches in full. *)
Inductive re_lang : regex → string → Prop :=
  | lang_eps : re_lang Eps ""
  | lang_class p c : p c = true → re_lang (Class p) (String c "")
  | lang_cat r1 r2 s1 s2 :
      re_lang r1 s1 → re_lang r2 s2 → re_lang (Cat r1 r2) (s1 ++ s2)
  | lang_alt_l r1 r2 s : re_lang r1 s → re_lang (Alt r1 r2) s
  | lang_alt_r r1 r2 s : re_lang r2 s → re_lang (Alt r1 r2) s
  | lang_star_nil r : re_lang (Star r) ""
  | lang_star_cons r s1 s2 :
      re_lang r s1 → re_lang (Star r) s2 → re_lang (Star r) (s1 ++ s2).

(** The text has no ["@"]. *)
Fixpoint no_at (s : string) : bool :=
  match s with
  | EmptyString => true
  | String c s' => negb (Ascii.eqb c "@") && no_at s'
  end.

(** The date [y]-[m]-[d] is a date of the calendar [strptime] knows. *)
Definition valid_date (y m d : Z) : Prop :=
  1 ≤ y ≤ 9999 ∧ 1 ≤ m ≤ 12 ∧ 1 ≤ d ≤ days_in_month y m.

(** The date written with four, two and two digits: [2024-02-29]. *)
Definition digit_char (n : Z) : ascii := ascii_of_N (Z.to_N (48 + n)).

Definition two_digits (n : Z) : string :=
  String (digit_char (n `div` 10)) (String (digit_char (n `mod` 10)) "").

Definition four_digits (n : Z) : string :=
  String (digit_char (n `div` 1000))
    (String (digit_char ((n `div` 100) `mod` 10)) (two_digits (n `mod` 100))).

Definition iso_date (y m d : Z) : string :=
  four_digits y ++ "-" ++ two_digits m ++ "-" ++ two_digits d.

(** ** Theorems *)

Section remove_null_records.
Import Cleaning.

Lemma remove_null_records_filter (T : table) f :
  remove_null_records T f = filter (λ r, get r f ≠ VNone) T.
Proof.
  induction T as [|r T IH]; [done|].
  cbn [remove_null_records]. rewrite filter_cons, IH. done.
Qed.

Lemma get_not_None (r : record) f :
  get r f ≠ VNone ↔ ∃ v, r !! f = Some v ∧ v ≠ VNone.
Proof.
  unfold get. destruct (r !! f) as [v|]; cbn.
  - split; [eauto|]. by intros (? & [= <-] & ?).
  - split; [done|]. by intros (? & ? & ?).
Qed.

End remove_null_records.

(** C4: every record of [remove_null_records T f] has the field [f] present
    with a value other than [None], and the returned table is a subsequence
    of [T], its records in the order they have in [T]. *)
Theorem remove_null_records_spec (T : table) (f : string) :
  Forall (λ r : record, ∃ v, r !! f = Some v ∧ v ≠ VNone)
         (Cleaning.remove_null_records T f)
  ∧ Cleaning.remove_null_records T f `sublist_of` T.
Proof.
  rewrite remove_null_records_filter. split.
  - apply Forall_forall. intros r [Hr _]%list_elem_of_filter.
    by apply get_not_None.
  - apply sublist_filter.
Qed.

(** *** Deduplication *)

Section remove_duplicates.
Import Cleaning.
Implicit Types (T : table) (seen : gset hkey) (κ : hkey).

(** The loop keeps, for every key that was not seen before, the first
    record that carries it, and nothing else. *)
Lemma remove_duplicates_loop_filter T k seen κ :
  filter (λ r, field_key k r = κ) (remove_duplicates_loop T k seen)
  = if decide (κ ∈ seen) then []
    else take 1 (filter (λ r, field_key k r = κ) T).
Proof.
  revert seen. induction T as [|r T IH]; intros seen.
  { cbn. by case_decide. }
  cbn [remove_duplicates_loop]. fold (field_key k r).
  rewrite (filter_cons _ r T).
  destruct (decide (field_key k r ∉ seen)) as [Hnew|Hold].
  - rewrite filter_cons, IH.
    destruct (decide (field_key k r = κ)) as [Heq|Hne].
    + rewrite decide_True
        by (apply elem_of_union_l, elem_of_singleton; done).
      rewrite decide_False by (by rewrite <-Heq). done.
    + destruct (decide (κ ∈ seen)) as [Hin|Hnin].
      * by rewrite decide_True by (by apply elem_of_union_r).
      * rewrite decide_False; [done|].
        intros [Hk%elem_of_singleton|Hk]%elem_of_union; congruence.
  - apply dec_stable in Hold. rewrite IH.
    destruct (decide (κ ∈ seen)) as [Hin|Hnin]; [done|].
    rewrite decide_False; [done|]. intros Heq. by rewrite <-Heq in Hnin.
Qed.

Lemma remove_duplicates_filter T k κ :
  filter (λ r, field_key k r = κ) (remove_duplicates T k)
  = take 1 (filter (λ r, field_key k r = κ) T).
Proof.
  unfold remove_duplicates. rewrite remove_duplicates_loop_filter.
  by rewrite decide_False by apply not_elem_of_empty.
Qed.

Lemma remove_duplicates_loop_sublist T k seen :
  remove_duplicates_loop T k seen `sublist_of` T.
Proof.
  revert seen. induction T as [|r T IH]; intros seen; cbn; [done|].
  case_decide; [by apply sublist_skip|by apply sublist_cons].
Qed.

(** A list with at most one element per class of [f] has no two elements
    of the same class. *)
Lemma NoDup_fmap_of_filter {A} (f : A → hkey) (l : list A) :
  (∀ κ, length (filter (λ x, f x = κ) l) ≤ 1)%nat → NoDup (f <$> l).
Proof.
  induction l as [|x l IH]; intros Hl; cbn; [constructor|].
  apply NoDup_cons. split.
  - intros (y & Hxy & Hy)%list_elem_of_fmap.
    specialize (Hl (f x)). rewrite filter_cons_True in Hl by done.
    assert (y ∈ filter (λ z, f z = f x) l) as Hin
      by (apply list_elem_of_filter; done).
    destruct (filter (λ z, f z = f x) l); [by apply elem_of_nil in Hin|].
    cbn in Hl. lia.
  - apply IH. intros κ. specialize (Hl κ).
    rewrite filter_cons in Hl. case_decide; cbn in Hl; lia.
Qed.

Lemma remove_duplicates_NoDup T k :
  NoDup (field_key k <$> remove_duplicates T k).
Proof.
  apply NoDup_fmap_of_filter. intros κ.
  rewrite remove_duplicates_filter, length_take. lia.
Qed.

(** The deduplication of the basics file reads the key with
    [record["customer_id"]]: where every record has that field it is
    [remove_duplicates] at that key, and it raises [KeyError] otherwise. *)
Lemma remove_duplicate_records_loop_agree T seen :
  Forall (has_field "customer_id") T →
  Basics.remove_duplicate_records_loop T seen
  = Ok (remove_duplicates_loop T "customer_id" seen).
Proof.
  intros HT. revert seen.
  induction HT as [|r T [v Hv] HT IH]; intros seen; [done|].
  cbn [Basics.remove_duplicate_records_loop remove_duplicates_loop].
  unfold getitem, get. rewrite Hv. cbn.
  case_decide; [|by apply IH]. by rewrite IH.
Qed.

Lemma remove_duplicate_records_agree T :
  Forall (has_field "customer_id") T →
  Basics.remove_duplicate_records T
  = Ok (remove_duplicates T "customer_id").
Proof. apply remove_duplicate_records_loop_agree. Qed.

End remove_duplicates.

(** C3: [remove_duplicates T k] holds at most one record per distinct value
    of [k] (no two of its records have equal values at [k]), and for every
    value the record kept is the first record of [T] that carries it; on the
    three records of the example the first and the third are kept. *)
Theorem remove_duplicates_first_occurrence (T : table) (k : string) :
  NoDup (field_key k <$> Cleaning.remove_duplicates T k)
  ∧ (∀ κ, head (filter (λ r, field_key k r = κ) (Cleaning.remove_duplicates T k))
          = head (filter (λ r, field_key k r = κ) T))
  ∧ Cleaning.remove_duplicates T k `sublist_of` T
  ∧ Cleaning.remove_duplicates
      [ {[ "id" := VInt 1; "amt" := VInt 10 ]};
        {[ "id" := VInt 1; "amt" := VInt 20 ]};
        {[ "id" := VInt 2; "amt" := VInt 5 ]} ] "id"
    = [ {[ "id" := VInt 1; "amt" := VInt 10 ]};
        {[ "id" := VInt 2; "amt" := VInt 5 ]} ].
Proof.
  split; [apply remove_duplicates_NoDup|]. split; [|split].
  - intros κ. rewrite remove_duplicates_filter.
    by destruct (filter _ T).
  - apply remove_duplicates_loop_sublist.
  - vm_compute. reflexivity.
Qed.

(** C10: every record without the key [k] has the key of [None]; of the
    records without [k] at most one is kept, it is the first such record of
    [T], and it is kept exactly when it is the first record of [T] whose
    value at [k] is [None]. *)
Theorem remove_duplicates_missing_key (T : table) (k : string) :
  let lacks := λ r : record, r !! k = None in
  let out := Cleaning.remove_duplicates T k in
  (∀ r : record, lacks r → field_key k r = KNone)
  ∧ (length (filter lacks out) ≤ 1)%nat
  ∧ filter lacks out `sublist_of` take 1 (filter lacks T)
  ∧ filter lacks out
    = filter lacks (take 1 (filter (λ r, field_key k r = KNone) T)).
Proof.
  intros lacks out.
  assert (Hkey : ∀ r : record, lacks r → field_key k r = KNone).
  { intros r Hr. unfold field_key, get. unfold lacks in Hr. by rewrite Hr. }
  assert (Hsplit : ∀ l : table,
    filter lacks l = filter lacks (filter (λ r, field_key k r = KNone) l)).
  { intros l. rewrite list_filter_filter. apply list_filter_iff.
    intros r. split; [intros Hr; split; [done|by apply Hkey]|by intros [? _]]. }
  assert (Hout : filter lacks out
    = filter lacks (take 1 (filter (λ r, field_key k r = KNone) T))).
  { rewrite (Hsplit out). unfold out. by rewrite remove_duplicates_filter. }
  assert (Hsub : filter lacks out `sublist_of` take 1 (filter lacks T)).
  { rewrite Hout, (Hsplit T).
    destruct (filter (λ r, field_key k r = KNone) T) as [|r F]; [done|].
    cbn [take]. rewrite filter_cons. rewrite (filter_cons _ r F).
    case_decide; [done|]. apply sublist_nil_l. }
  split; [done|]. split; [|done].
  apply sublist_length in Hsub. rewrite length_take in Hsub. lia.
Qed.

Lemma remove_duplicates_missing_key_witness :
  filter (λ r : record, r !! "id" = None)
    (Cleaning.remove_duplicates
       [ {[ "id" := VInt 1 ]}; {[ "amt" := VInt 2 ]}; {[ "amt" := VInt 3 ]} ]
       "id")
  = [ {[ "amt" := VInt 2 ]} ].
Proof.
  rewrite (proj2 (proj2 (proj2 (remove_duplicates_missing_key
    [ {[ "id" := VInt 1 ]}; {[ "amt" := VInt 2 ]}; {[ "amt" := VInt 3 ]} ]
    "id")))).
  vm_compute. reflexivity.
Defined.

(** *** Joins *)

Section joins.
Implicit Types (L R : table) (m : gmap hkey record) (κ : hkey).

Lemma getitem_has_field (r : record) k :
  has_field k r → ∃ v, getitem r k = Ok v ∧ key_of v = field_key k r.
Proof.
  intros [v Hv]. exists v. unfold getitem, field_key, get. by rewrite Hv.
Qed.

Lemma getitem_lacks_field (r : record) k :
  ¬ has_field k r → getitem r k = Raise KeyError.
Proof.
  intros Hr. unfold getitem. destruct (r !! k) eqn:E; [|done].
  destruct Hr. by eexists.
Qed.

Lemma last_with_key_cons R k κ r :
  last_with_key (r :: R) k κ
  = match last_with_key R k κ with
    | Some r' => Some r'
    | None => if decide (field_key k r = κ) then Some r else None
    end.
Proof.
  unfold last_with_key. rewrite filter_cons.
  case_decide; [rewrite last_cons|]; by destruct (last _).
Qed.

(** The dictionary built from [R] maps a key to the last record of [R]
    that carries it. *)
Lemma right_lookup_from_spec R k acc :
  Forall (has_field k) R →
  ∃ m, right_lookup_from R k acc = Ok m
       ∧ ∀ κ, m !! κ = match last_with_key R k κ with
                       | Some r => Some r
                       | None => acc !! κ
                       end.
Proof.
  intros HR. revert acc.
  induction HR as [|r R Hr HR IH]; intros acc.
  { exists acc. split; [done|]. intros κ. done. }
  destruct (getitem_has_field r k Hr) as (v & Hv & Hkey).
  destruct (IH (<[key_of v := r]> acc)) as (m & Hm & Hlook).
  exists m. split.
  { cbn [right_lookup_from]. rewrite Hv. exact Hm. }
  intros κ. rewrite Hlook, last_with_key_cons, Hkey.
  destruct (last_with_key R k κ); [done|].
  case_decide as Hκ.
  - rewrite Hκ. apply lookup_insert_eq.
  - by apply lookup_insert_ne.
Qed.

Lemma right_lookup_of_spec R k :
  Forall (has_field k) R →
  ∃ m, right_lookup_of R k = Ok m ∧ ∀ κ, m !! κ = last_with_key R k κ.
Proof.
  intros HR. destruct (right_lookup_from_spec R k ∅ HR) as (m & Hm & Hlook).
  exists m. split; [done|]. intros κ. rewrite Hlook.
  destruct (last_with_key R k κ); [done|]. apply lookup_empty.
Qed.

(** A record of [R] without the key makes the dictionary raise. *)
Lemma right_lookup_from_raises R k acc :
  ¬ Forall (has_field k) R → right_lookup_from R k acc = Raise KeyError.
Proof.
  revert acc. induction R as [|r R IH]; intros acc HR.
  { destruct HR. constructor. }
  cbn [right_lookup_from].
  destruct (decide (has_field k r)) as [Hr|Hr].
  - destruct (getitem_has_field r k Hr) as (v & -> & _). cbn.
    apply IH. intros HR'. apply HR. by constructor.
  - by rewrite getitem_lacks_field.
Qed.

Lemma last_with_key_Some R k κ r :
  last_with_key R k κ = Some r → r ∈ R ∧ field_key k r = κ.
Proof.
  unfold last_with_key. intros Hr%last_Some_elem_of.
  by apply list_elem_of_filter in Hr as [? ?].
Qed.

Lemma last_with_key_matches R k (l : record) :
  is_Some (last_with_key R k (field_key k l)) ↔ matches_in R k l.
Proof.
  unfold last_with_key, matches_in. rewrite last_is_Some, Exists_exists.
  split.
  - intros Hne. destruct (filter _ R) as [|r F] eqn:E; [done|].
    assert (r ∈ filter (λ r, field_key k r = field_key k l) R) as Hr
      by (rewrite E; left).
    apply list_elem_of_filter in Hr as [? ?]. eauto.
  - intros (r & Hr & Hk) E.
    assert (r ∈ filter (λ r, field_key k r = field_key k l) R) as Hin
      by (apply list_elem_of_filter; done).
    rewrite E in Hin. by apply elem_of_nil in Hin.
Qed.

Lemma inner_join_loop_spec L R k m :
  (∀ κ, m !! κ = last_with_key R k κ) →
  SQL.inner_join_loop L m k
  = omap (λ l, merged l <$> last_with_key R k (field_key k l)) L.
Proof.
  intros Hm. induction L as [|l L IH]; [done|].
  cbn [SQL.inner_join_loop omap list_omap]. fold (field_key k l).
  rewrite Hm, IH. by destruct (last_with_key R k (field_key k l)).
Qed.

Lemma left_join_loop_spec L R k m :
  (∀ κ, m !! κ = last_with_key R k κ) →
  SQL.left_join_loop L m k
  = (λ l, merged l (default ∅ (last_with_key R k (field_key k l)))) <$> L.
Proof.
  intros Hm. induction L as [|l L IH]; [done|].
  cbn [SQL.left_join_loop fmap list_fmap]. fold (field_key k l).
  by rewrite Hm, IH.
Qed.

(** Where every left record has the key, reading it with [l[key]] or with
    [record.get(join_key)] makes no difference. *)
Lemma inner_join_loop_agree L k m :
  Forall (has_field k) L →
  Transformations.inner_join_loop L m k = Ok (SQL.inner_join_loop L m k).
Proof.
  induction 1 as [|l L Hl HL IH]; [done|].
  cbn [Transformations.inner_join_loop SQL.inner_join_loop].
  destruct (getitem_has_field l k Hl) as (v & Hv & Hk).
  rewrite Hv. cbn. rewrite Hk. fold (field_key k l).
  destruct (m !! field_key k l); [|done]. by rewrite IH.
Qed.

Lemma inner_join_loop_raises L k m :
  ¬ Forall (has_field k) L →
  Transformations.inner_join_loop L m k = Raise KeyError.
Proof.
  induction L as [|l L IH]; intros HL.
  { destruct HL. constructor. }
  cbn [Transformations.inner_join_loop].
  destruct (decide (has_field k l)) as [Hl|Hl].
  - destruct (getitem_has_field l k Hl) as (v & -> & _). cbn.
    assert (¬ Forall (has_field k) L) as HL'
      by (intros ?; apply HL; by constructor).
    rewrite (IH HL'). by destruct (m !! key_of v).
  - by rewrite getitem_lacks_field.
Qed.

Lemma merged_empty (l : record) : merged l ∅ = l.
Proof. unfold merged. apply (left_id_L ∅ (∪)). Qed.

Lemma merged_lookup_right (l r : record) f v :
  r !! f = Some v → merged l r !! f = Some v.
Proof. intros Hr. unfold merged. by apply lookup_union_Some_l. Qed.

Lemma merged_lookup_left (l r : record) f :
  r !! f = None → merged l r !! f = l !! f.
Proof. intros Hr. unfold merged. by apply lookup_union_r. Qed.

(** The records an inner join emits, from the left records that match. *)
Lemma omap_merged_matches L R k :
  Forall2 (λ l o : record,
             ∃ r, r ∈ R ∧ field_key k r = field_key k l ∧ o = merged l r)
          (filter (matches_in R k) L)
          (omap (λ l, merged l <$> last_with_key R k (field_key k l)) L).
Proof.
  induction L as [|l L IH]; [constructor|].
  cbn [omap list_omap]. rewrite filter_cons.
  destruct (last_with_key R k (field_key k l)) as [r|] eqn:E.
  - assert (matches_in R k l) as Hl
      by (apply last_with_key_matches; rewrite E; eauto).
    rewrite decide_True by done. cbn. constructor; [|done].
    apply last_with_key_Some in E as [? ?]. eauto.
  - assert (¬ matches_in R k l) as Hl.
    { intros Hl%last_with_key_matches. rewrite E in Hl. by destruct Hl. }
    rewrite decide_False by done. done.
Qed.

End joins.

(** C2, with the key required of the left records where the code reads it
    with [l[key]]: where every record of [R] has the key [k], the inner join
    of the SQL-like file returns a table with one record for each record of
    [L] whose value at [k] appears as a value at [k] in [R], in the order of
    [L], each the left record merged with a record of [R] of equal key; a
    left record without a match contributes nothing.  The inner join of the
    transformations file returns the same table where every record of [L]
    has the key [k] too. *)
Theorem inner_join_size (L R : table) (k : string) :
  Forall (has_field k) R →
  ∃ out,
    SQL.inner_join L R k = Ok out
    ∧ (Forall (has_field k) L → Transformations.inner_join L R k = Ok out)
    ∧ length out = length (filter (matches_in R k) L)
    ∧ Forall2 (λ l o : record,
                 ∃ r, r ∈ R ∧ field_key k r = field_key k l ∧ o = merged l r)
              (filter (matches_in R k) L) out.
Proof.
  intros HR. destruct (right_lookup_of_spec R k HR) as (m & Hm & Hlook).
  exists (SQL.inner_join_loop L m k).
  assert (Hout := omap_merged_matches L R k).
  rewrite <-(inner_join_loop_spec L R k m Hlook) in Hout.
  split; [|split; [|split]].
  - unfold SQL.inner_join. by rewrite Hm.
  - intros HL. unfold Transformations.inner_join. rewrite Hm. cbn.
    by apply inner_join_loop_agree.
  - symmetry. by eapply Forall2_length.
  - done.
Qed.

Lemma inner_join_size_witness :
  ∃ out,
    SQL.inner_join [ {[ "id" := VInt 1; "amt" := VInt 10 ]};
                     {[ "id" := VInt 3 ]}; ∅ ]
                   [ {[ "id" := VInt 1; "name" := VStr "a" ]};
                     {[ "id" := VInt 2; "name" := VStr "b" ]} ] "id" = Ok out
    ∧ length out = 1%nat.
Proof.
  destruct (inner_join_size
              [ {[ "id" := VInt 1; "amt" := VInt 10 ]}; {[ "id" := VInt 3 ]}; ∅ ]
              [ {[ "id" := VInt 1; "name" := VStr "a" ]};
                {[ "id" := VInt 2; "name" := VStr "b" ]} ] "id")
    as (out & Hout & _ & Hlen & _).
  - apply (bool_decide_unpack _). vm_compute. exact I.
  - exists out. split; [exact Hout|]. rewrite Hlen. vm_compute. reflexivity.
Defined.

(** The inner join of the transformations file reads the key of a left
    record with [l[key]]: a left record without the key raises [KeyError],
    also when every record of [R] has the key. *)
Lemma inner_join_left_key_required :
  Forall (has_field "id") ([] : table)
  ∧ Transformations.inner_join [∅] [] "id" = Raise KeyError
  ∧ ¬ ∃ out, Transformations.inner_join [∅] [] "id" = Ok out
             ∧ length out = length (filter (matches_in [] "id") [∅ : record]).
Proof.
  split; [constructor|]. split; [vm_compute; reflexivity|].
  intros (out & Hout & _). vm_compute in Hout. discriminate Hout.
Qed.

(** C5: where every record of [R] has the key [k], the left join returns one
    record for each record of [L], in the order of [L]: the left record
    itself, with no field added, when its value at [k] has no match in [R],
    and the left record merged with a record of [R] of equal key otherwise. *)
Theorem left_join_keeps_left (L R : table) (k : string) :
  Forall (has_field k) R →
  ∃ out,
    SQL.left_join L R k = Ok out
    ∧ length out = length L
    ∧ Forall2 (λ l o : record,
                 if decide (matches_in R k l)
                 then ∃ r, r ∈ R ∧ field_key k r = field_key k l
                           ∧ o = merged l r
                 else o = l) L out.
Proof.
  intros HR. destruct (right_lookup_of_spec R k HR) as (m & Hm & Hlook).
  exists (SQL.left_join_loop L m k).
  rewrite (left_join_loop_spec L R k m Hlook).
  split; [|split].
  - unfold SQL.left_join. rewrite Hm. cbn.
    by rewrite (left_join_loop_spec L R k m Hlook).
  - by rewrite length_fmap.
  - apply Forall2_fmap_r, Forall_Forall2_diag, Forall_forall.
    intros l _. unfold compose. cbv beta.
    destruct (last_with_key R k (field_key k l)) as [r|] eqn:E; cbn [default].
    + rewrite decide_True
        by (apply last_with_key_matches; rewrite E; eauto).
      apply last_with_key_Some in E as [? ?]. eauto.
    + rewrite decide_False; [apply merged_empty|].
      intros Hl%last_with_key_matches. rewrite E in Hl. by destruct Hl.
Qed.

Lemma left_join_keeps_left_witness :
  SQL.left_join [ {[ "id" := VInt 1; "amt" := VInt 10 ]}; {[ "id" := VInt 3 ]} ]
                [ {[ "id" := VInt 1; "name" := VStr "a" ]} ] "id"
  = Ok [ {[ "id" := VInt 1; "amt" := VInt 10; "name" := VStr "a" ]};
         {[ "id" := VInt 3 ]} ].
Proof.
  destruct (left_join_keeps_left
              [ {[ "id" := VInt 1; "amt" := VInt 10 ]}; {[ "id" := VInt 3 ]} ]
              [ {[ "id" := VInt 1; "name" := VStr "a" ]} ] "id")
    as (out & Hout & _).
  - apply (bool_decide_unpack _). vm_compute. exact I.
  - vm_compute. reflexivity.
Defined.

(** C6: where every record of [R] has the key [k], both joins merge a left
    record with the last record of [R] whose value at [k] equals its own,
    and in a merged record every field of the right record has the right
    record's value, whether or not the left record has the field. *)
Theorem join_last_write_wins (L R : table) (k : string) :
  Forall (has_field k) R →
  ∃ inner left,
    SQL.inner_join L R k = Ok inner
    ∧ SQL.left_join L R k = Ok left
    ∧ inner = omap (λ l, merged l <$> last_with_key R k (field_key k l)) L
    ∧ left = (λ l, merged l (default ∅ (last_with_key R k (field_key k l))))
               <$> L
    ∧ (∀ (l r : record) f v, r !! f = Some v → merged l r !! f = Some v)
    ∧ (∀ (l r : record) f, r !! f = None → merged l r !! f = l !! f).
Proof.
  intros HR. destruct (right_lookup_of_spec R k HR) as (m & Hm & Hlook).
  exists (SQL.inner_join_loop L m k), (SQL.left_join_loop L m k).
  unfold SQL.inner_join, SQL.left_join. rewrite Hm. cbn.
  split; [done|]. split; [done|].
  split; [by apply inner_join_loop_spec|].
  split; [by apply left_join_loop_spec|].
  split; [apply merged_lookup_right|apply merged_lookup_left].
Qed.

Lemma join_last_write_wins_witness :
  SQL.inner_join [ {[ "id" := VInt 1; "name" := VStr "left" ]} ]
                 [ {[ "id" := VInt 1; "name" := VStr "first" ]};
                   {[ "id" := VInt 1; "name" := VStr "last" ]} ] "id"
  = Ok [ {[ "id" := VInt 1; "name" := VStr "last" ]} ].
Proof.
  destruct (join_last_write_wins
              [ {[ "id" := VInt 1; "name" := VStr "left" ]} ]
              [ {[ "id" := VInt 1; "name" := VStr "first" ]};
                {[ "id" := VInt 1; "name" := VStr "last" ]} ] "id")
    as (inner & left & Hinner & _ & -> & _).
  - apply (bool_decide_unpack _). vm_compute. exact I.
  - rewrite Hinner. vm_compute. reflexivity.
Defined.

(** *** Ordering of values *)

Section py_lt.
Implicit Types a b c : value.

Lemma string_ltb_leb (s t : string) :
  String.ltb s t = negb (String.leb t s).
Proof.
  unfold String.ltb, String.leb. rewrite (String.compare_antisym s t).
  by destruct (String.compare t s).
Qed.

Lemma string_ltb_irrefl (s : string) : String.ltb s s = false.
Proof.
  rewrite string_ltb_leb. apply negb_false_iff, Is_true_true.
  change (String.le s s). done.
Qed.

Lemma py_lt_returns a b :
  returns (py_lt a b) ↔ kind_of a = kind_of b ∧ kind_of a ≠ NoneKind.
Proof.
  unfold returns, py_lt, kind_of.
  destruct (key_of a), (key_of b); split;
    try (intros [? ?]; done); try (intros [? ?]; congruence); eauto.
Qed.

Lemma py_lt_raises a b e : py_lt a b = Raise e → e = TypeError.
Proof.
  unfold py_lt. destruct (key_of a), (key_of b); congruence.
Qed.

Lemma py_lt_true_ne a b : py_lt a b = Ok true → key_of a ≠ key_of b.
Proof.
  unfold py_lt. destruct (key_of a) as [|x|s], (key_of b) as [|y|t];
    try done; intros [= Hlt] [= ->].
  - lia.
  - by rewrite string_ltb_irrefl in Hlt.
Qed.

Lemma py_lt_true_asym a b : py_lt a b = Ok true → key_le a b.
Proof.
  unfold key_le, py_lt. destruct (key_of a) as [|x|s], (key_of b) as [|y|t];
    try done; intros [= Hlt]; f_equal.
  - lia.
  - rewrite string_ltb_leb in Hlt. apply negb_true_iff in Hlt.
    rewrite string_ltb_leb. apply negb_false_iff.
    destruct (String.leb_total s t) as [H|H]; [done|congruence].
Qed.

Lemma key_le_trans a b c : key_le a b → key_le b c → key_le a c.
Proof.
  unfold key_le, py_lt.
  destruct (key_of a) as [|x|s], (key_of b) as [|y|t], (key_of c) as [|z|u];
    try done; intros [= Hab] [= Hbc]; f_equal.
  - lia.
  - rewrite string_ltb_leb in *. apply negb_false_iff in Hab, Hbc.
    apply negb_false_iff, Is_true_true. change (String.le s u).
    trans t; by apply Is_true_true.
Qed.

End py_lt.

(** *** The stable sort *)

Section sorted_facts.
Context {A : Type} (key : A → value).
Implicit Types (x y : A) (l s : list A).

Lemma sorted_insert_raises x l e :
  sorted_insert key x l = Raise e → e = TypeError.
Proof.
  induction l as [|y l IH]; cbn; [done|].
  destruct (py_lt (key y) (key x)) as [[]|e'] eqn:E; cbn.
  - destruct (sorted_insert key x l); cbn; [done|].
    intros [= <-]. by apply IH.
  - done.
  - intros [= <-]. by eapply py_lt_raises.
Qed.

Lemma sorted_asc_raises l e : sorted_asc key l = Raise e → e = TypeError.
Proof.
  revert e. induction l as [|x l IH]; intros e; cbn; [done|].
  destruct (sorted_asc key l) as [s|e']; cbn.
  - apply sorted_insert_raises.
  - intros [= <-]. by apply IH.
Qed.

Lemma sorted_insert_perm x l s :
  sorted_insert key x l = Ok s → s ≡ₚ x :: l.
Proof.
  revert s. induction l as [|y l IH]; intros s; cbn.
  { by intros [= <-]. }
  destruct (py_lt (key y) (key x)) as [[]|e'] eqn:E; cbn; [| |done].
  - destruct (sorted_insert key x l) as [s'|]; cbn; [|done].
    intros [= <-]. rewrite (IH s' eq_refl). apply Permutation_swap.
  - by intros [= <-].
Qed.

Lemma sorted_asc_perm l s : sorted_asc key l = Ok s → s ≡ₚ l.
Proof.
  revert s. induction l as [|x l IH]; intros s; cbn.
  { by intros [= <-]. }
  destruct (sorted_asc key l) as [s'|]; cbn; [|done].
  intros Hs%sorted_insert_perm. by rewrite Hs, (IH s' eq_refl).
Qed.

(** Insertion puts [x] before the records of equal key: the records of
    each key keep their order. *)
Lemma sorted_insert_filter x l s κ :
  sorted_insert key x l = Ok s →
  filter (λ y, key_of (key y) = κ) s
  = filter (λ y, key_of (key y) = κ) (x :: l).
Proof.
  revert s. induction l as [|y l IH]; intros s Hs; cbn [sorted_insert] in Hs.
  { by injection Hs as <-. }
  destruct (py_lt (key y) (key x)) as [[]|e'] eqn:E; cbn in Hs; [| |done].
  - destruct (sorted_insert key x l) as [s'|]; cbn in Hs; [|done].
    injection Hs as <-. apply py_lt_true_ne in E.
    rewrite (filter_cons _ y s'), (IH s' eq_refl).
    rewrite (filter_cons _ x (y :: l)), (filter_cons _ x l),
      (filter_cons _ y l).
    repeat case_decide; congruence.
  - by injection Hs as <-.
Qed.

Lemma sorted_asc_filter l s κ :
  sorted_asc key l = Ok s →
  filter (λ y, key_of (key y) = κ) s = filter (λ y, key_of (key y) = κ) l.
Proof.
  revert s. induction l as [|x l IH]; intros s Hs; cbn [sorted_asc] in Hs.
  { by injection Hs as <-. }
  destruct (sorted_asc key l) as [s'|]; cbn in Hs; [|done].
  apply (sorted_insert_filter _ _ _ κ) in Hs.
  by rewrite Hs, !filter_cons, (IH s' eq_refl).
Qed.

Lemma sorted_insert_sorted x l s :
  StronglySorted (λ a b, key_le (key a) (key b)) l →
  sorted_insert key x l = Ok s →
  StronglySorted (λ a b, key_le (key a) (key b)) s.
Proof.
  revert s. induction l as [|y l IH]; intros s Hl; cbn [sorted_insert].
  { intros [= <-]. repeat constructor. }
  apply StronglySorted_cons in Hl as [Hy Hl].
  destruct (py_lt (key y) (key x)) as [[]|e'] eqn:E; cbn; [| |done].
  - destruct (sorted_insert key x l) as [s'|] eqn:Es; cbn; [|done].
    intros [= <-]. apply StronglySorted_cons. split; [|by apply IH].
    rewrite (sorted_insert_perm _ _ _ Es). constructor; [|done].
    by apply py_lt_true_asym.
  - intros [= <-]. apply StronglySorted_cons. split.
    + constructor; [done|].
      eapply Forall_impl; [exact Hy|]. intros z Hz. cbn in Hz.
      by eapply key_le_trans.
    + by apply StronglySorted_cons.
Qed.

Lemma sorted_asc_sorted l s :
  sorted_asc key l = Ok s →
  StronglySorted (λ a b, key_le (key a) (key b)) s.
Proof.
  revert s. induction l as [|x l IH]; intros s; cbn [sorted_asc].
  { intros [= <-]. constructor. }
  destruct (sorted_asc key l) as [s'|]; cbn; [|done].
  apply sorted_insert_sorted. by apply IH.
Qed.

End sorted_facts.

Section sorted_returns.
Context {A : Type} (key : A → value).
Implicit Types (x y : A) (l s : list A) (c : kind).

Lemma sorted_insert_head x y l s :
  sorted_insert key x (y :: l) = Ok s → returns (py_lt (key y) (key x)).
Proof.
  cbn [sorted_insert]. destruct (py_lt (key y) (key x)) as [b|]; [|done].
  intros _. by exists b.
Qed.

Lemma sorted_insert_total x l c :
  same_kind key c (x :: l) → returns (sorted_insert key x l).
Proof.
  intros [Hc Hxl]. apply Forall_cons in Hxl as [Hx Hl].
  induction Hl as [|y l Hy Hl IH]; [by eexists|].
  cbn [sorted_insert].
  destruct (proj2 (py_lt_returns (key y) (key x))) as [b ->];
    [split; congruence|].
  cbn. destruct b; [|by eexists].
  destruct IH as [s ->]. by eexists.
Qed.

Lemma sorted_asc_total l c : same_kind key c l → returns (sorted_asc key l).
Proof.
  intros [Hc Hl]. induction Hl as [|x l Hx Hl IH]; [by eexists|].
  cbn [sorted_asc]. destruct IH as [s Hs]. rewrite Hs. cbn.
  apply (sorted_insert_total x s c). split; [done|].
  constructor; [done|]. by rewrite (sorted_asc_perm key l s Hs).
Qed.

(** Two or more keys are sorted only when they are all of one orderable
    kind. *)
Lemma sorted_asc_same_kind l s :
  sorted_asc key l = Ok s → (2 ≤ length l)%nat → ∃ c, same_kind key c l.
Proof.
  revert s. induction l as [|x l IH]; intros s Hs Hlen; [cbn in Hlen; lia|].
  cbn [sorted_asc] in Hs.
  destruct (sorted_asc key l) as [s'|] eqn:Es; cbn in Hs; [|done].
  assert (Hperm := sorted_asc_perm key l s' Es).
  destruct s' as [|y s'].
  { apply Permutation_nil_l in Hperm as <-. cbn in Hlen. lia. }
  apply sorted_insert_head, py_lt_returns in Hs as [Hyx Hy].
  exists (kind_of (key x)). split; [congruence|].
  constructor; [done|].
  destruct (decide (2 ≤ length l)%nat) as [Hl|Hl].
  - destruct (IH _ eq_refl Hl) as (c & _ & Hall).
    assert (kind_of (key y) = c) as Hc.
    { eapply (proj1 (Forall_forall _ l) Hall).
      rewrite <-Hperm. left. }
    eapply Forall_impl; [exact Hall|]. intros z Hz. cbn in Hz. congruence.
  - apply Permutation_length in Hperm as Hplen. cbn in Hplen.
    destruct s' as [|? ?]; [|cbn in Hplen; lia].
    apply Permutation_singleton_l in Hperm as <-. by constructor.
Qed.

Lemma same_kind_reverse c l : same_kind key c (reverse l) ↔ same_kind key c l.
Proof. unfold same_kind. by rewrite Forall_reverse. Qed.

Lemma sorted_raises items rev e :
  sorted key items rev = Raise e → e = TypeError.
Proof.
  unfold sorted. destruct rev.
  - destruct (sorted_asc key (reverse items)) eqn:E; cbn; [done|].
    intros [= <-]. by eapply sorted_asc_raises.
  - apply sorted_asc_raises.
Qed.

Lemma sorted_total items rev c :
  same_kind key c items → returns (sorted key items rev).
Proof.
  intros Hc. unfold sorted. destruct rev.
  - destruct (sorted_asc_total (reverse items) c) as [s ->];
      [by apply same_kind_reverse|]. by eexists.
  - by eapply sorted_asc_total.
Qed.

Lemma sorted_same_kind items rev s :
  sorted key items rev = Ok s → (2 ≤ length items)%nat →
  ∃ c, same_kind key c items.
Proof.
  unfold sorted. destruct rev.
  - destruct (sorted_asc key (reverse items)) as [s'|] eqn:E; cbn; [|done].
    intros _ Hlen.
    destruct (sorted_asc_same_kind _ _ E) as [c Hc];
      [by rewrite length_reverse|].
    exists c. by apply same_kind_reverse.
  - apply sorted_asc_same_kind.
Qed.

Lemma sorted_perm items rev s :
  sorted key items rev = Ok s → s ≡ₚ items.
Proof.
  unfold sorted. destruct rev.
  - destruct (sorted_asc key (reverse items)) as [s'|] eqn:E; cbn; [|done].
    intros [= <-]. apply sorted_asc_perm in E.
    by rewrite reverse_Permutation, E, reverse_Permutation.
  - apply sorted_asc_perm.
Qed.

(** The sort is stable in both directions: the records of each key are in
    input order. *)
Lemma sorted_filter items rev s κ :
  sorted key items rev = Ok s →
  filter (λ y, key_of (key y) = κ) s
  = filter (λ y, key_of (key y) = κ) items.
Proof.
  unfold sorted. destruct rev.
  - destruct (sorted_asc key (reverse items)) as [s'|] eqn:E; cbn; [|done].
    intros [= <-]. apply (sorted_asc_filter _ _ _ κ) in E.
    by rewrite filter_reverse, E, filter_reverse, reverse_involutive.
  - apply sorted_asc_filter.
Qed.

Lemma StronglySorted_reverse (R : relation A) l :
  StronglySorted R l → StronglySorted (flip R) (reverse l).
Proof.
  induction 1 as [|x l Hl IH Hx]; [constructor|].
  rewrite reverse_cons. apply StronglySorted_app. split; [|split].
  - intros y z Hy ->%list_elem_of_singleton.
    apply (proj1 (elem_of_reverse _ _)) in Hy.
    unfold flip. revert y Hy. by apply Forall_forall.
  - done.
  - repeat constructor.
Qed.

Lemma sorted_sorted items rev s :
  sorted key items rev = Ok s →
  if rev
  then StronglySorted (λ a b, key_le (key b) (key a)) s
  else StronglySorted (λ a b, key_le (key a) (key b)) s.
Proof.
  unfold sorted. destruct rev.
  - destruct (sorted_asc key (reverse items)) as [s'|] eqn:E; cbn; [|done].
    intros [= <-]. apply sorted_asc_sorted in E.
    by apply StronglySorted_reverse in E.
  - apply sorted_asc_sorted.
Qed.

End sorted_returns.

(** *** Order-by *)

(** X22: On a table whose values at the field are all integers (booleans
    included, [True] ordered as [1] and [False] as [0]), or are all text,
    [order_by] returns the records of the table in ascending, or descending,
    order of that value. *)
Lemma order_by_sorts (T : table) (f : string) (asc : bool) (c : kind) :
  same_kind (λ r : record, get r f) c T →
  ∃ out, SQL.order_by T f asc = Ok out
         ∧ out ≡ₚ T
         ∧ if asc then ascending_by f out else descending_by f out.
Proof.
  intros Hc. unfold SQL.order_by.
  destruct (sorted_total (λ r : record, get r f) T (negb asc) c Hc)
    as [out Hout].
  exists out. split; [done|]. split; [by eapply sorted_perm|].
  apply sorted_sorted in Hout. by destruct asc.
Qed.

(** The sort of the transformations file reads the key with
    [x.get(field, 0)], and orders a record without the field. *)
Lemma sort_records_by_field_missing :
  Transformations.sort_records_by_field [ {[ "a" := VInt 1 ]}; ∅ ] "a"
  = Ok [ ∅; {[ "a" := VInt 1 ]} ].
Proof. vm_compute. reflexivity. Qed.

(** C1: in a table of two or more records where some record is without the
    field, [order_by] and [df_order_by] raise [TypeError], in both
    directions: the key of that record is [None], which [<] does not order.
    The record is not placed before the others. *)
Theorem order_by_missing_field_raises (T : table) (f : string) (asc : bool) :
  (2 ≤ length T)%nat →
  Exists (λ r : record, r !! f = None) T →
  SQL.order_by T f asc = Raise TypeError
  ∧ PySpark.df_order_by T f asc = Raise TypeError.
Proof.
  intros Hlen Hmiss.
  assert (sorted (λ r : record, get r f) T (negb asc) = Raise TypeError) as H;
    [|by split].
  destruct (sorted _ T (negb asc)) as [out|e] eqn:E.
  - destruct (sorted_same_kind _ _ _ _ E Hlen) as (c & Hc & Hall).
    apply Exists_exists in Hmiss as (r & Hr & Hnone).
    apply (proj1 (Forall_forall _ _) Hall) in Hr.
    unfold kind_of, get in Hr. rewrite Hnone in Hr. cbn in Hr. congruence.
  - f_equal. by eapply sorted_raises.
Qed.

Lemma order_by_missing_field_raises_witness :
  SQL.order_by [ {[ "a" := VInt 1 ]}; ∅ ] "a" true = Raise TypeError
  ∧ PySpark.df_order_by [ {[ "a" := VInt 1 ]}; ∅ ] "a" true = Raise TypeError.
Proof.
  apply (order_by_missing_field_raises [ {[ "a" := VInt 1 ]}; ∅ ] "a" true).
  - cbn. lia.
  - apply (bool_decide_unpack _). vm_compute. exact I.
Defined.




(** *** Validators *)

Section validators.
Import Cleaning.
Context (parse_other : string → option (Z * Z * Z)).

(** Whatever the text, [strptime] fails with [ValueError] only. *)
Lemma strptime_ymd_raises s e : strptime_ymd s = Raise e → e = ValueError.
Proof.
  unfold strptime_ymd.
  destruct (_ ≫= _) as [[[[y m] d] rest]|]; [|congruence].
  destruct (negb _); [congruence|].
  destruct (_ && _); congruence.
Qed.

Lemma datetime_strptime_raises s e :
  datetime_strptime parse_other (VStr s) = Raise e → e = ValueError.
Proof.
  unfold datetime_strptime. destruct (is_ascii_text s).
  - apply strptime_ymd_raises.
  - destruct (parse_other s); congruence.
Qed.

Lemma validate_date_format_text s :
  validate_date_format parse_other (VStr s)
  = Ok (match datetime_strptime parse_other (VStr s) with
        | Ok _ => true
        | Raise _ => false
        end).
Proof.
  unfold validate_date_format.
  destruct (datetime_strptime parse_other (VStr s)) as [d|e] eqn:E; [done|].
  apply datetime_strptime_raises in E as ->. done.
Qed.

(** An argument that is not text makes both validators raise. *)
Lemma validators_not_text v :
  (∀ s, v ≠ VStr s) →
  validate_date_format parse_other v = Raise TypeError
  ∧ validate_email v = Raise TypeError.
Proof. intros Hv. destruct v; try done. by destruct (Hv s). Qed.

End validators.

(** C8, for the inputs the validators are written for: for every input text
    [validate_date_format] and [validate_email] return a boolean and do not
    raise, and [validate_date_format] returns [True] when [strptime] parses
    the text as a [%Y-%m-%d] date and [False] when it does not. *)
Theorem validators_total_on_text (parse_other : string → option (Z * Z * Z))
    (s : string) :
  (∃ b, Cleaning.validate_date_format parse_other (VStr s) = Ok b)
  ∧ (returns (datetime_strptime parse_other (VStr s)) →
     Cleaning.validate_date_format parse_other (VStr s) = Ok true)
  ∧ (¬ returns (datetime_strptime parse_other (VStr s)) →
     Cleaning.validate_date_format parse_other (VStr s) = Ok false)
  ∧ (∃ b, Cleaning.validate_email (VStr s) = Ok b).
Proof.
  rewrite validate_date_format_text. split; [by eexists|].
  split; [|split].
  - by intros [d ->].
  - intros Hs. destruct (datetime_strptime parse_other (VStr s)) as [d|e];
      [|done].
    destruct Hs. by exists d.
  - by eexists.
Qed.

Lemma validators_total_on_text_witness :
  Cleaning.validate_date_format (λ _, None) (VStr "2023-13-05") = Ok false
  ∧ Cleaning.validate_date_format (λ _, None) (VStr "2024-02-29") = Ok true.
Proof.
  split.
  - apply (proj1 (proj2 (proj2
      (validators_total_on_text (λ _, None) "2023-13-05")))).
    intros [d Hd]. vm_compute in Hd. discriminate Hd.
  - apply (proj1 (proj2 (validators_total_on_text (λ _, None) "2024-02-29"))).
    eexists. vm_compute. reflexivity.
Defined.

(** On the input [None], a value and not a text, both validators raise
    [TypeError]: they do not return a boolean for every input value. *)
Lemma validators_raise_on_None :
  (∀ parse_other,
     Cleaning.validate_date_format parse_other VNone = Raise TypeError)
  ∧ Cleaning.validate_email VNone = Raise TypeError
  ∧ (∀ parse_other,
       ¬ (∀ v, ∃ b, Cleaning.validate_date_format parse_other v = Ok b))
  ∧ ¬ (∀ v, ∃ b, Cleaning.validate_email v = Ok b).
Proof.
  split; [done|]. split; [done|]. split.
  - intros parse_other H. destruct (H VNone) as [b Hb]. discriminate Hb.
  - intros H. destruct (H VNone) as [b Hb]. discriminate Hb.
Qed.

(** *** Division by zero *)

Section division.

Lemma int_truediv_zero a : int_truediv a 0 = Raise ZeroDivisionError.
Proof. done. Qed.

Lemma int_truediv_nonzero a b :
  b ≠ 0 → int_truediv a b ≠ Raise ZeroDivisionError.
Proof.
  intros Hb. unfold int_truediv.
  destruct (Z.eqb_spec b 0) as [->|_]; [done|].
  by destruct (SFdiv _ _ _ _).
Qed.

(** With a zero divisor the division raises [ZeroDivisionError], unless an
    integer dividend is first converted to [float] and is out of range. *)
Lemma py_truediv_zero a b :
  number_is_zero b = true →
  (∀ n x, a = NInt n → b = NFloat x → returns (int_to_float n)) →
  py_truediv a b = Raise ZeroDivisionError.
Proof.
  intros Hb Ha. destruct a as [m|x], b as [n|y]; cbn in Hb.
  - apply Z.eqb_eq in Hb as ->. apply int_truediv_zero.
  - destruct (Ha m y eq_refl eq_refl) as [x Hx].
    unfold py_truediv, to_float. rewrite Hx. cbn. by rewrite Hb.
  - apply Z.eqb_eq in Hb as ->. reflexivity.
  - unfold py_truediv, to_float. cbn. by rewrite Hb.
Qed.

Lemma safe_division_no_zero_division a b :
  (Testing.safe_division a b).2 ≠ Raise ZeroDivisionError.
Proof.
  unfold Testing.safe_division.
  destruct (py_truediv a b) as [q|[]]; done.
Qed.

Lemma calculate_average_no_zero_division values :
  Transformations.calculate_average values ≠ Raise ZeroDivisionError.
Proof.
  destruct values as [|v values]; [done|].
  unfold Transformations.calculate_average.
  pose proof (int_truediv_nonzero (foldl Z.add 0 (v :: values))
                (Z.of_nat (length (v :: values)))) as H.
  destruct (int_truediv _ _) as [q|e]; [done|].
  cbn. intros [= ->]. apply H; [|done]. cbn [length]. lia.
Qed.

End division.

(** C9, for the operands whose conversion does not overflow: for all numbers
    [a] and [b], integers (booleans included) or floats, with [b] equal to
    zero, [safe_division a b] returns [None], logging one error message,
    provided that [a] is within the range of [float] in case [a] is an
    integer and [b] a float; and [calculate_average] of the empty list
    returns [0].  Neither function lets a [ZeroDivisionError] out, whatever
    the numbers and whatever the list of integers. *)
Theorem division_by_zero_sentinel (a b : number) :
  number_is_zero b = true →
  (∀ n x, a = NInt n → b = NFloat x → returns (int_to_float n)) →
  Testing.safe_division a b = (["Division by zero error occurred"], Ok None)
  ∧ Transformations.calculate_average [] = Ok (NInt 0)
  ∧ (∀ a' b', (Testing.safe_division a' b').2 ≠ Raise ZeroDivisionError)
  ∧ (∀ values,
       Transformations.calculate_average values ≠ Raise ZeroDivisionError).
Proof.
  intros Hb Ha. split; [|split; [done|split]].
  - unfold Testing.safe_division. by rewrite py_truediv_zero.
  - apply safe_division_no_zero_division.
  - apply calculate_average_no_zero_division.
Qed.

Lemma division_by_zero_sentinel_witness :
  Testing.safe_division (NInt 7) (NFloat (S754_zero true))
  = (["Division by zero error occurred"], Ok None)
  ∧ Testing.safe_division (NFloat S754_nan) (NInt 0)
    = (["Division by zero error occurred"], Ok None).
Proof.
  split.
  - apply (division_by_zero_sentinel (NInt 7) (NFloat (S754_zero true)));
      [reflexivity|].
    intros n x [= <-] _. eexists. vm_compute. reflexivity.
  - apply (division_by_zero_sentinel (NFloat S754_nan) (NInt 0));
      [reflexivity|].
    intros n x Hn. discriminate Hn.
Defined.

(** The integer [10 ** 400] divided by the float [0.0]: the divisor is zero,
    and the call raises [OverflowError], from the conversion of the dividend,
    which [safe_division] does not catch.  It does not return [None] for
    every pair of numbers with a zero divisor. *)
Lemma safe_division_overflow :
  number_is_zero (NFloat (S754_zero false)) = true
  ∧ Testing.safe_division (NInt (10 ^ 400)) (NFloat (S754_zero false))
    = ([], Raise OverflowError)
  ∧ ¬ (∀ a b, number_is_zero b = true →
         Testing.safe_division a b
         = (["Division by zero error occurred"], Ok None)).
Proof.
  assert (Testing.safe_division (NInt (10 ^ 400)) (NFloat (S754_zero false))
          = ([], Raise OverflowError)) as Hraise by (vm_compute; reflexivity).
  split; [reflexivity|]. split; [exact Hraise|].
  intros H. rewrite (H _ (NFloat (S754_zero false)) eq_refl) in Hraise.
  discriminate Hraise.
Qed.


(** ** Further properties of the code *)

(** *** Comprehensions whose condition or element can raise *)

Section raising.
Context {A B : Type}.
Implicit Types (cond : A → result bool) (f : A → result B) (l : list A).

Lemma filter_raising_Ok cond (p : A → bool) l :
  Forall (λ x, cond x = Ok (p x)) l →
  filter_raising cond l = Ok (filter (λ x, p x = true) l).
Proof.
  induction 1 as [|x l Hx Hl IH]; [done|].
  cbn [filter_raising]. rewrite Hx, IH, filter_cons.
  destruct (p x); [by rewrite decide_True|by rewrite decide_False].
Qed.

Lemma filter_raising_Raise cond l e :
  Forall (λ x, cond x = Raise e ∨ returns (cond x)) l →
  Exists (λ x, cond x = Raise e) l →
  filter_raising cond l = Raise e.
Proof.
  induction 1 as [|x l Hx Hl IH]; intros Hex; [by apply Exists_nil in Hex|].
  cbn [filter_raising]. destruct Hx as [Hx|[b Hx]]; rewrite Hx; [reflexivity|]. cbn.
  apply Exists_cons in Hex as [Hx'|Hex]; [congruence|].
  by rewrite (IH Hex).
Qed.

Lemma map_raising_Ok f (g : A → B) l :
  Forall (λ x, f x = Ok (g x)) l → map_raising f l = Ok (g <$> l).
Proof.
  induction 1 as [|x l Hx Hl IH]; [done|].
  cbn [map_raising]. by rewrite Hx, IH.
Qed.

Lemma map_raising_Raise f l e :
  Forall (λ x, f x = Raise e ∨ returns (f x)) l →
  Exists (λ x, f x = Raise e) l →
  map_raising f l = Raise e.
Proof.
  induction 1 as [|x l Hx Hl IH]; intros Hex; [by apply Exists_nil in Hex|].
  cbn [map_raising]. destruct Hx as [Hx|[b Hx]]; rewrite Hx; [reflexivity|]. cbn.
  apply Exists_cons in Hex as [Hx'|Hex]; [congruence|].
  by rewrite (IH Hex).
Qed.

End raising.

(** *** Projection and selection *)

Section select.
Implicit Types (T : table) (r : record) (cols : list string).

Lemma select_fold_lookup r cols (acc : gmap string value) c :
  foldl (λ (selected : gmap string value) column,
           <[column := get r column]> selected) acc cols !! c
  = if decide (c ∈ cols) then Some (get r c) else acc !! c.
Proof.
  revert acc. induction cols as [|c' cols IH]; intros acc; cbn [foldl].
  { by rewrite decide_False by apply not_elem_of_nil. }
  rewrite IH. destruct (decide (c ∈ cols)) as [Hin|Hnin].
  - by rewrite decide_True by (by right).
  - destruct (decide (c' = c)) as [->|Hne].
    + rewrite lookup_insert_eq. by rewrite decide_True by left.
    + rewrite lookup_insert_ne by done.
      rewrite decide_False; [done|].
      intros [?|?]%elem_of_cons; congruence.
Qed.

Lemma select_get r cols c :
  c ∈ cols →
  get (foldl (λ (selected : gmap string value) column,
                <[column := get r column]> selected) ∅ cols) c
  = get r c.
Proof.
  intros Hc. unfold get at 1. rewrite select_fold_lookup.
  by rewrite decide_True.
Qed.

End select.

(** X1: [select_columns] gives every record exactly the requested columns, a
    column the record does not have with the value [None]; [df_select] is
    the same function, and selecting the same columns again changes
    nothing. *)
Theorem select_columns_exact (T : table) (cols : list string) :
  Forall2 (λ r o : record,
             ∀ c, o !! c = if decide (c ∈ cols) then Some (get r c) else None)
          T (SQL.select_columns T cols)
  ∧ PySpark.df_select T cols = SQL.select_columns T cols
  ∧ SQL.select_columns (SQL.select_columns T cols) cols
    = SQL.select_columns T cols.
Proof.
  split; [|split; [done|]].
  - unfold SQL.select_columns. apply Forall2_fmap_r, Forall_Forall2_diag.
    apply Forall_forall. intros r _ c. unfold compose.
    rewrite select_fold_lookup. by case_decide.
  - unfold SQL.select_columns. rewrite <-list_fmap_compose.
    apply list_fmap_ext. intros i r _. unfold compose. apply map_eq. intros c.
    rewrite !select_fold_lookup. case_decide; [|done].
    by rewrite select_get.
Qed.

Section where_filter.
Implicit Types (T : table) (r : record).

Lemma key_of_None v : key_of v = KNone ↔ v = VNone.
Proof. destruct v as [|[]| |]; split; done. Qed.

Lemma where_filter_None T f :
  SQL.where_filter T f VNone = filter (λ r, get r f = VNone) T.
Proof.
  unfold SQL.where_filter, py_eq. apply list_filter_iff. intros r.
  rewrite bool_decide_eq_true. apply key_of_None.
Qed.

End where_filter.

(** X2: [where_filter] with the value [None] selects the records whose field is
    [None] or absent: these and the records [remove_null_records] keeps
    divide the table between them, each part in table order. *)
Theorem where_filter_None_complement (T : table) (f : string) :
  SQL.where_filter T f VNone = filter (λ r : record, get r f = VNone) T
  ∧ SQL.where_filter T f VNone ++ Cleaning.remove_null_records T f ≡ₚ T
  ∧ SQL.where_filter (Cleaning.remove_null_records T f) f VNone = []
  ∧ Cleaning.remove_null_records (SQL.where_filter T f VNone) f = [].
Proof.
  rewrite !where_filter_None, !remove_null_records_filter.
  split; [done|]. split; [apply filter_app_complement|].
  split.
  - rewrite list_filter_filter. induction T as [|r T IH]; [done|].
    rewrite filter_cons, IH. by rewrite decide_False by (by intros [? ?]).
  - rewrite list_filter_filter. induction T as [|r T IH]; [done|].
    rewrite filter_cons, IH. by rewrite decide_False by (by intros [? ?]).
Qed.

Section greater_than.
Implicit Types (T : table) (r : record) (t : Z).

Lemma py_gt_number r f t :
  number_or_absent f r →
  py_gt (get_default r f (VInt 0)) (VInt t) = Ok (t <? field_number f r).
Proof.
  unfold number_or_absent, kind_of, field_number, py_gt, py_lt.
  cbn [key_of]. by destruct (key_of (get_default r f (VInt 0))).
Qed.

Lemma py_gt_not_number r f t :
  ¬ number_or_absent f r →
  py_gt (get_default r f (VInt 0)) (VInt t) = Raise TypeError.
Proof.
  unfold number_or_absent, kind_of, field_number, py_gt, py_lt.
  cbn [key_of]. by destruct (key_of (get_default r f (VInt 0))).
Qed.

Lemma where_greater_than_numbers T f t :
  Forall (number_or_absent f) T →
  SQL.where_greater_than T f (VInt t)
  = Ok (filter (λ r, t < field_number f r) T).
Proof.
  intros HT. unfold SQL.where_greater_than.
  rewrite (filter_raising_Ok _ (λ r, t <? field_number f r)).
  - f_equal. apply list_filter_iff. intros r. apply Z.ltb_lt.
  - eapply Forall_impl; [exact HT|]. intros r Hr. by apply py_gt_number.
Qed.

Lemma where_greater_than_raises T f t :
  Exists (λ r, ¬ number_or_absent f r) T →
  SQL.where_greater_than T f (VInt t) = Raise TypeError.
Proof.
  intros HT. unfold SQL.where_greater_than. apply filter_raising_Raise.
  - apply Forall_forall. intros r _.
    destruct (decide (number_or_absent f r)) as [Hr|Hr].
    + right. rewrite py_gt_number by done. by eexists.
    + left. by apply py_gt_not_number.
  - eapply Exists_impl; [exact HT|]. intros r Hr. by apply py_gt_not_number.
Qed.

End greater_than.

(** X3: [where_greater_than], [df_filter] and [filter_records_by_threshold] are
    one function.  With an integer threshold, on a table whose field is a
    number or absent in every record, it returns the records whose number
    is above the threshold, a record without the field counting as [0] (it
    is kept exactly when the threshold is negative); a record whose field is
    [None] or text makes it raise [TypeError]. *)
Theorem where_greater_than_missing_is_zero (T : table) (f : string) (t : Z) :
  (Forall (number_or_absent f) T →
     SQL.where_greater_than T f (VInt t)
     = Ok (filter (λ r, t < field_number f r) T))
  ∧ (∀ r : record, r !! f = None → field_number f r = 0)
  ∧ (Exists (λ r, ¬ number_or_absent f r) T →
     SQL.where_greater_than T f (VInt t) = Raise TypeError)
  ∧ PySpark.df_filter T f (VInt t) = SQL.where_greater_than T f (VInt t)
  ∧ Transformations.filter_records_by_threshold T f (VInt t)
    = SQL.where_greater_than T f (VInt t).
Proof.
  split; [apply where_greater_than_numbers|].
  split; [|split; [apply where_greater_than_raises|done]].
  intros r Hr. unfold field_number, get_default. by rewrite Hr.
Qed.

Lemma where_greater_than_missing_is_zero_witness :
  SQL.where_greater_than [ {[ "amount" := VInt 5 ]}; ∅;
                           {[ "amount" := VInt (-7) ]} ] "amount" (VInt (-1))
  = Ok [ {[ "amount" := VInt 5 ]}; ∅ ]
  ∧ SQL.where_greater_than [ {[ "amount" := VStr "5" ]} ] "amount" (VInt 1)
    = Raise TypeError.
Proof.
  split.
  - rewrite (proj1 (where_greater_than_missing_is_zero
      [ {[ "amount" := VInt 5 ]}; ∅; {[ "amount" := VInt (-7) ]} ]
      "amount" (-1))).
    + vm_compute. reflexivity.
    + apply (bool_decide_unpack _). vm_compute. exact I.
  - apply (proj1 (proj2 (proj2 (where_greater_than_missing_is_zero
      [ {[ "amount" := VStr "5" ]} ] "amount" 1)))).
    apply (bool_decide_unpack _). vm_compute. exact I.
Defined.

(** *** Grouping *)

Section grouping.
Implicit Types (T : table) (r : record) (κ : hkey).

Lemma group_by_count_from_spec T g (counts : gmap hkey Z) :
  Forall (has_field g) T →
  ∃ m, SQL.group_by_count_from T g counts = Ok m
       ∧ ∀ κ, m !! κ
              = let n := length (filter (λ r, field_key g r = κ) T) in
                match counts !! κ with
                | Some c => Some (c + Z.of_nat n)
                | None => if decide (n = 0%nat) then None
                          else Some (Z.of_nat n)
                end.
Proof.
  intros HT. revert counts.
  induction HT as [|r T Hr HT IH]; intros counts.
  { exists counts. split; [done|]. intros κ. cbn.
    destruct (counts !! κ) as [c|]; [f_equal; lia|done]. }
  destruct (getitem_has_field r g Hr) as (v & Hv & Hkey).
  destruct (IH (<[key_of v := default 0 (counts !! key_of v) + 1]> counts))
    as (m & Hm & Hlook).
  exists m. split.
  { cbn [SQL.group_by_count_from]. rewrite Hv. exact Hm. }
  intros κ. rewrite Hlook, Hkey, filter_cons. cbn zeta.
  destruct (decide (field_key g r = κ)) as [Hκ|Hκ].
  - rewrite Hκ, lookup_insert_eq. cbn [length].
    destruct (counts !! κ) as [c|]; cbn [default]; unfold id.
    + f_equal. lia.
    + rewrite decide_False by done. f_equal. lia.
  - by rewrite lookup_insert_ne.
Qed.

Lemma group_by_count_from_raises T g (counts : gmap hkey Z) :
  ¬ Forall (has_field g) T →
  SQL.group_by_count_from T g counts = Raise KeyError.
Proof.
  revert counts. induction T as [|r T IH]; intros counts HT.
  { destruct HT. constructor. }
  cbn [SQL.group_by_count_from].
  destruct (decide (has_field g r)) as [Hr|Hr].
  - destruct (getitem_has_field r g Hr) as (v & -> & _). cbn.
    apply IH. intros HT'. apply HT. by constructor.
  - by rewrite getitem_lacks_field.
Qed.

Lemma py_add_int_number r s acc :
  number_or_absent s r →
  py_add_int acc (get_default r s (VInt 0)) = Ok (acc + field_number s r).
Proof.
  unfold number_or_absent, kind_of, field_number, py_add_int.
  by destruct (key_of (get_default r s (VInt 0))).
Qed.

Lemma py_add_int_not_number r s acc :
  ¬ number_or_absent s r →
  py_add_int acc (get_default r s (VInt 0)) = Raise TypeError.
Proof.
  unfold number_or_absent, kind_of, field_number, py_add_int.
  by destruct (key_of (get_default r s (VInt 0))).
Qed.


End grouping.

(** X4: [group_by_count] (and [count_records_by_group], [count_by_category],
    the same loop): where every record has the group field, it returns the
    dictionary that maps each value of the field to the number of records
    that carry it, and has no entry for any other value; a record without
    the field makes it raise [KeyError]. *)
Theorem group_by_count_counts (T : table) (g : string) :
  (Forall (has_field g) T →
     ∃ m, SQL.group_by_count T g = Ok m
          ∧ ∀ κ, m !! κ
                 = let n := length (filter (λ r, field_key g r = κ) T) in
                   if decide (n = 0%nat) then None else Some (Z.of_nat n))
  ∧ (¬ Forall (has_field g) T → SQL.group_by_count T g = Raise KeyError)
  ∧ Transformations.count_records_by_group T g = SQL.group_by_count T g
  ∧ Basics.count_by_category T = SQL.group_by_count T "category".
Proof.
  split; [|split; [apply group_by_count_from_raises|done]].
  intros HT.
  destruct (group_by_count_from_spec T g ∅ HT) as (m & Hm & Hlook).
  exists m. split; [done|]. intros κ. by rewrite Hlook, lookup_empty.
Qed.

Lemma group_by_count_counts_witness :
  (∃ m, SQL.group_by_count
          [ {[ "cat" := VStr "a" ]}; {[ "cat" := VStr "b" ]};
            {[ "cat" := VStr "a" ]} ] "cat" = Ok m
        ∧ m !! KStr "a" = Some 2 ∧ m !! KStr "c" = None)
  ∧ SQL.group_by_count [ {[ "cat" := VStr "a" ]}; ∅ ] "cat" = Raise KeyError.
Proof.
  split.
  - destruct (proj1 (group_by_count_counts
        [ {[ "cat" := VStr "a" ]}; {[ "cat" := VStr "b" ]};
          {[ "cat" := VStr "a" ]} ] "cat")) as (m & Hm & Hlook).
    + apply (bool_decide_unpack _). vm_compute. exact I.
    + exists m. split; [exact Hm|]. rewrite !Hlook. vm_compute. done.
  - apply (proj1 (proj2 (group_by_count_counts
        [ {[ "cat" := VStr "a" ]}; ∅ ] "cat"))).
    intros H. apply (bool_decide_pack _) in H. vm_compute in H. exact H.
Defined.



(** X6: [having_filter] after [group_by_count]: the result has an entry for a
    value exactly when more records than the threshold carry it (and at
    least one does), and the entry is their number. *)
Theorem having_filter_after_count (T : table) (g : string) (t : Z) :
  Forall (has_field g) T →
  ∃ m, SQL.group_by_count T g = Ok m
       ∧ ∀ κ c, SQL.having_filter m t !! κ = Some c
                ↔ c = Z.of_nat (length (filter (λ r, field_key g r = κ) T))
                  ∧ 0 < c ∧ t < c.
Proof.
  intros HT.
  destruct (proj1 (group_by_count_counts T g) HT) as (m & Hm & Hlook).
  exists m. split; [done|]. intros κ c. unfold SQL.having_filter.
  rewrite map_lookup_filter_Some, Hlook. cbn zeta. cbn [snd].
  case_decide as Hn; split.
  - by intros [? _].
  - intros (-> & Hpos & _). rewrite Hn in Hpos. cbn in Hpos. lia.
  - intros [[= <-] Ht]. split; [done|]. split; [lia|done].
  - intros (-> & _ & Ht). done.
Qed.

Lemma having_filter_after_count_witness :
  ∃ m, SQL.group_by_count
         [ {[ "cat" := VStr "a" ]}; {[ "cat" := VStr "b" ]};
           {[ "cat" := VStr "a" ]} ] "cat" = Ok m
       ∧ SQL.having_filter m 1 !! KStr "a" = Some 2
       ∧ SQL.having_filter m 1 !! KStr "b" = None.
Proof.
  destruct (having_filter_after_count
      [ {[ "cat" := VStr "a" ]}; {[ "cat" := VStr "b" ]};
        {[ "cat" := VStr "a" ]} ] "cat" 1) as (m & Hm & Hhave).
  - apply (bool_decide_unpack _). vm_compute. exact I.
  - exists m. split; [exact Hm|]. split.
    + apply Hhave. vm_compute. done.
    + destruct (SQL.having_filter m 1 !! KStr "b") as [c|] eqn:E; [|done].
      apply Hhave in E as (-> & _ & Ht). vm_compute in Ht. discriminate Ht.
Defined.

(** *** Columns changed in place *)

Section in_place.
Implicit Types (T : table) (r : record).

Lemma df_rename_column_Ok T old new :
  Forall (has_field old) T →
  PySpark.df_rename_column T old new = (renamed old new <$> T, Ok ()).
Proof.
  induction 1 as [|r T [v Hv] HT IH]; [done|].
  cbn [PySpark.df_rename_column]. rewrite Hv, IH. cbn.
  unfold renamed at 2, get. by rewrite Hv.
Qed.

Lemma renamed_back old new r :
  has_field old r → r !! new = None → renamed new old (renamed old new r) = r.
Proof.
  intros [v Hv] Hnew.
  assert (old ≠ new) as Hne by (intros ->; congruence).
  unfold renamed at 1.
  assert (get (renamed old new r) new = v) as ->.
  { unfold get at 1, renamed. rewrite lookup_insert_eq. cbn. unfold get.
    by rewrite Hv. }
  unfold renamed. rewrite delete_insert_eq.
  rewrite (delete_id (delete old r)) by (by rewrite lookup_delete_ne).
  rewrite insert_delete_eq. by apply insert_id.
Qed.

Lemma df_fill_na_get T f d :
  d ≠ VNone → Forall (λ r, get r f ≠ VNone) (PySpark.df_fill_na T f d).
Proof.
  intros Hd. unfold PySpark.df_fill_na. apply Forall_fmap, Forall_forall.
  intros r _. cbn. case_decide as Hr; [|done].
  unfold get. by rewrite lookup_insert_eq.
Qed.

End in_place.

(** X7: [df_rename_column], where every record has the old column and none has
    the new one: it renames the column in every record, and renaming back
    restores the table. *)
Theorem df_rename_column_round_trip (T : table) (old new : string) :
  Forall (has_field old) T →
  Forall (λ r : record, r !! new = None) T →
  ∃ T', PySpark.df_rename_column T old new = (T', Ok ())
        ∧ Forall2 (λ r r' : record,
                     r' !! new = r !! old ∧ r' !! old = None
                     ∧ ∀ c, c ≠ old → c ≠ new → r' !! c = r !! c) T T'
        ∧ PySpark.df_rename_column T' new old = (T, Ok ()).
Proof.
  intros Hold Hnew. exists (renamed old new <$> T).
  split; [by apply df_rename_column_Ok|]. split.
  - apply Forall2_fmap_r, Forall_Forall2_diag, Forall_forall.
    intros r Hr. unfold compose.
    apply (proj1 (Forall_forall _ _) Hold) in Hr as Hro.
    apply (proj1 (Forall_forall _ _) Hnew) in Hr as Hrn.
    destruct Hro as [v Hv].
    assert (old ≠ new) as Hne by (intros ->; congruence).
    unfold renamed, get. rewrite Hv. cbn. split; [|split].
    + by rewrite lookup_insert_eq.
    + rewrite lookup_insert_ne by done. apply lookup_delete_eq.
    + intros c Hco Hcn. rewrite lookup_insert_ne by done.
      by rewrite lookup_delete_ne.
  - rewrite df_rename_column_Ok.
    + f_equal. rewrite <-list_fmap_compose. rewrite <-(list_fmap_id T) at 2.
      apply Forall_fmap_ext. apply Forall_forall. intros r Hr.
      apply renamed_back.
      * by apply (proj1 (Forall_forall _ _) Hold).
      * by apply (proj1 (Forall_forall _ _) Hnew).
    + apply Forall_fmap, Forall_forall. intros r _. cbn.
      unfold has_field, renamed. rewrite lookup_insert_eq. by eexists.
Qed.

Lemma df_rename_column_round_trip_witness :
  PySpark.df_rename_column
    [ {[ "amt" := VInt 1; "id" := VInt 7 ]}; {[ "amt" := VInt 2 ]} ]
    "amt" "amount"
  = ([ {[ "amount" := VInt 1; "id" := VInt 7 ]}; {[ "amount" := VInt 2 ]} ],
     Ok ()).
Proof.
  destruct (df_rename_column_round_trip
      [ {[ "amt" := VInt 1; "id" := VInt 7 ]}; {[ "amt" := VInt 2 ]} ]
      "amt" "amount") as (T' & HT' & _).
  - apply (bool_decide_unpack _). vm_compute. exact I.
  - apply (bool_decide_unpack _). vm_compute. exact I.
  - vm_compute. reflexivity.
Defined.

(** X8: [df_rename_column] on a table in which a record is without the old
    column: it raises [KeyError] at the first such record, and the records
    before it have already been renamed while that record and those after
    it are as they were. *)
Theorem df_rename_column_partial (T1 T2 : table) (r : record) (old new : string) :
  Forall (has_field old) T1 →
  r !! old = None →
  PySpark.df_rename_column (T1 ++ r :: T2)%list old new
  = (((renamed old new <$> T1) ++ r :: T2)%list, Raise KeyError).
Proof.
  intros HT1 Hr. induction HT1 as [|r1 T1 [v Hv] HT1 IH].
  { cbn. by rewrite Hr. }
  cbn [app PySpark.df_rename_column fmap list_fmap]. rewrite Hv, IH. cbn.
  unfold renamed at 2, get. by rewrite Hv.
Qed.

Lemma df_rename_column_partial_witness :
  PySpark.df_rename_column
    [ {[ "amt" := VInt 1 ]}; {[ "id" := VInt 2 ]}; {[ "amt" := VInt 3 ]} ]
    "amt" "amount"
  = ([ {[ "amount" := VInt 1 ]}; {[ "id" := VInt 2 ]}; {[ "amt" := VInt 3 ]} ],
     Raise KeyError).
Proof.
  assert (H := df_rename_column_partial [ {[ "amt" := VInt 1 ]} ]
             [ {[ "amt" := VInt 3 ]} ] {[ "id" := VInt 2 ]} "amt" "amount").
  cbn [app] in H. rewrite H.
  - vm_compute. reflexivity.
  - apply (bool_decide_unpack _). vm_compute. exact I.
  - vm_compute. reflexivity.
Defined.

(** X9: [df_fill_na] with a default other than [None] keeps every record, leaves
    the records whose field is not [None] as they are, and leaves no record
    for [remove_null_records] to remove; filling twice is filling once. *)
Theorem df_fill_na_no_nulls (T : table) (f : string) (d : value) :
  d ≠ VNone →
  Cleaning.remove_null_records (PySpark.df_fill_na T f d) f
  = PySpark.df_fill_na T f d
  ∧ length (PySpark.df_fill_na T f d) = length T
  ∧ Forall2 (λ r o : record,
               if decide (get r f = VNone) then o = <[f := d]> r else o = r)
            T (PySpark.df_fill_na T f d)
  ∧ PySpark.df_fill_na (PySpark.df_fill_na T f d) f d
    = PySpark.df_fill_na T f d.
Proof.
  intros Hd. assert (Hget := df_fill_na_get T f d Hd).
  split; [|split; [|split]].
  - rewrite remove_null_records_filter.
    induction Hget as [|r T' Hr HT' IH]; [done|].
    by rewrite filter_cons_True, IH.
  - unfold PySpark.df_fill_na. by rewrite length_fmap.
  - unfold PySpark.df_fill_na. apply Forall2_fmap_r, Forall_Forall2_diag.
    apply Forall_forall. intros r _. unfold compose. by case_decide.
  - unfold PySpark.df_fill_na at 1.
    rewrite <-(list_fmap_id (PySpark.df_fill_na T f d)) at 2.
    apply Forall_fmap_ext. eapply Forall_impl; [exact Hget|].
    intros r Hr. cbn. by rewrite decide_False.
Qed.

Lemma df_fill_na_no_nulls_witness :
  Cleaning.remove_null_records
    (PySpark.df_fill_na [ {[ "a" := VInt 1 ]}; ∅; {[ "a" := VNone ]} ]
                        "a" (VInt 0)) "a"
  = [ {[ "a" := VInt 1 ]}; {[ "a" := VInt 0 ]}; {[ "a" := VInt 0 ]} ].
Proof.
  rewrite (proj1 (df_fill_na_no_nulls
             [ {[ "a" := VInt 1 ]}; ∅; {[ "a" := VNone ]} ] "a" (VInt 0)
             ltac:(discriminate))).
  vm_compute. reflexivity.
Defined.

(** X10: [df_drop] leaves no record with the column and changes no other field;
    a table without the column is returned as it is, and filling the column
    after dropping it gives every record the default. *)
Theorem df_drop_column (T : table) (c : string) (d : value) :
  Forall2 (λ r o : record,
             o !! c = None ∧ ∀ c', c' ≠ c → o !! c' = r !! c')
          T (PySpark.df_drop T c)
  ∧ (Forall (λ r : record, r !! c = None) T → PySpark.df_drop T c = T)
  ∧ PySpark.df_fill_na (PySpark.df_drop T c) c d
    = (λ r : record, <[c := d]> r) <$> T.
Proof.
  unfold PySpark.df_drop. split; [|split].
  - apply Forall2_fmap_r, Forall_Forall2_diag, Forall_forall.
    intros r _. unfold compose. split; [apply lookup_delete_eq|].
    intros c' Hc'. by apply lookup_delete_ne.
  - intros HT. rewrite <-(list_fmap_id T) at 2. apply Forall_fmap_ext.
    eapply Forall_impl; [exact HT|]. intros r Hr. cbn. by apply delete_id.
  - unfold PySpark.df_fill_na. rewrite <-list_fmap_compose.
    apply list_fmap_ext. intros i r _. unfold compose.
    rewrite decide_True by (unfold get; by rewrite lookup_delete_eq).
    apply insert_delete_eq.
Qed.

Lemma df_drop_column_witness :
  PySpark.df_drop [ {[ "a" := VInt 1 ]}; {[ "b" := VInt 2 ]} ] "c"
  = [ {[ "a" := VInt 1 ]}; {[ "b" := VInt 2 ]} ].
Proof.
  apply (proj1 (proj2 (df_drop_column
           [ {[ "a" := VInt 1 ]}; {[ "b" := VInt 2 ]} ] "c" VNone))).
  apply (bool_decide_unpack _). vm_compute. exact I.
Defined.

(** *** Cleaning of values and records *)

Section cleaning_values.
Implicit Types (v : value) (values : list value) (t : Z).

Lemma replace_missing_with_zero_no_None values :
  Forall (λ v, v ≠ VNone) (Cleaning.replace_missing_with_zero values).
Proof.
  unfold Cleaning.replace_missing_with_zero. apply Forall_fmap, Forall_forall.
  intros v _. cbn. by case_decide.
Qed.

Lemma py_gt_value_number v t :
  kind_of v = NumKind → py_gt v (VInt t) = Ok (t <? value_number v).
Proof.
  unfold kind_of, value_number, py_gt, py_lt. cbn [key_of].
  by destruct (key_of v).
Qed.

Lemma py_gt_value_not_number v t :
  kind_of v ≠ NumKind → py_gt v (VInt t) = Raise TypeError.
Proof.
  unfold kind_of, value_number, py_gt, py_lt. cbn [key_of].
  by destruct (key_of v).
Qed.

Lemma detect_outliers_numbers values t :
  Forall (λ v, kind_of v = NumKind) values →
  Cleaning.detect_outliers values (VInt t)
  = Ok (filter (λ v, t < value_number v) values).
Proof.
  intros Hv. unfold Cleaning.detect_outliers.
  rewrite (filter_raising_Ok _ (λ v, t <? value_number v)).
  - f_equal. apply list_filter_iff. intros v. apply Z.ltb_lt.
  - eapply Forall_impl; [exact Hv|]. intros v Hk. by apply py_gt_value_number.
Qed.

Lemma detect_outliers_raises values t :
  Exists (λ v, kind_of v ≠ NumKind) values →
  Cleaning.detect_outliers values (VInt t) = Raise TypeError.
Proof.
  intros Hv. unfold Cleaning.detect_outliers. apply filter_raising_Raise.
  - apply Forall_forall. intros v _.
    destruct (decide (kind_of v = NumKind)) as [Hk|Hk].
    + right. rewrite py_gt_value_number by done. by eexists.
    + left. by apply py_gt_value_not_number.
  - eapply Exists_impl; [exact Hv|]. intros v Hk.
    by apply py_gt_value_not_number.
Qed.

End cleaning_values.

(** [replace_missing_with_zero] leaves no [None], changes no other value and
    keeps the length; doing it twice is doing it once. *)
Theorem replace_missing_with_zero_clean (values : list value) :
  Forall (λ v, v ≠ VNone) (Cleaning.replace_missing_with_zero values)
  ∧ Forall2 (λ v o, if decide (v = VNone) then o = VInt 0 else o = v)
            values (Cleaning.replace_missing_with_zero values)
  ∧ Cleaning.replace_missing_with_zero
      (Cleaning.replace_missing_with_zero values)
    = Cleaning.replace_missing_with_zero values.
Proof.
  split; [apply replace_missing_with_zero_no_None|]. split.
  - unfold Cleaning.replace_missing_with_zero.
    apply Forall2_fmap_r, Forall_Forall2_diag, Forall_forall.
    intros v _. unfold compose. by repeat case_decide.
  - unfold Cleaning.replace_missing_with_zero at 1.
    rewrite <-(list_fmap_id (Cleaning.replace_missing_with_zero values)) at 2.
    apply Forall_fmap_ext.
    eapply Forall_impl; [apply replace_missing_with_zero_no_None|].
    intros v Hv. cbn. by rewrite decide_True.
Qed.

(** X11: [detect_outliers] (and [threshold_filter], the same function) with an
    integer threshold: on a list of numbers it returns the numbers above
    the threshold; a [None] or a text in the list makes it raise
    [TypeError]; on a list of numbers and [None]s it returns once
    [replace_missing_with_zero] has been applied. *)
Theorem detect_outliers_after_replace (values : list value) (t : Z) :
  (Forall (λ v, kind_of v = NumKind) values →
     Cleaning.detect_outliers values (VInt t)
     = Ok (filter (λ v, t < value_number v) values))
  ∧ (Exists (λ v, kind_of v ≠ NumKind) values →
     Cleaning.detect_outliers values (VInt t) = Raise TypeError)
  ∧ (Forall (λ v, v = VNone ∨ kind_of v = NumKind) values →
     returns (Cleaning.detect_outliers
                (Cleaning.replace_missing_with_zero values) (VInt t)))
  ∧ Testing.threshold_filter values (VInt t)
    = Cleaning.detect_outliers values (VInt t).
Proof.
  split; [apply detect_outliers_numbers|].
  split; [apply detect_outliers_raises|]. split; [|done].
  intros Hv. rewrite detect_outliers_numbers; [by eexists|].
  unfold Cleaning.replace_missing_with_zero. apply Forall_fmap.
  eapply Forall_impl; [exact Hv|]. intros v [->|Hk]; cbn; [done|].
  by case_decide.
Qed.

Lemma detect_outliers_after_replace_witness :
  Cleaning.detect_outliers [VInt 5; VNone; VInt 50] (VInt 10) = Raise TypeError
  ∧ returns (Cleaning.detect_outliers
               (Cleaning.replace_missing_with_zero [VInt 5; VNone; VInt 50])
               (VInt 10))
  ∧ Cleaning.detect_outliers [VInt 5; VBool true; VInt 50] (VInt 0)
    = Ok [VInt 5; VBool true; VInt 50].
Proof.
  split; [|split].
  - apply (proj1 (proj2 (detect_outliers_after_replace
                           [VInt 5; VNone; VInt 50] 10))).
    apply (bool_decide_unpack _). vm_compute. exact I.
  - apply (proj1 (proj2 (proj2 (detect_outliers_after_replace
                                  [VInt 5; VNone; VInt 50] 10)))).
    apply (bool_decide_unpack _). vm_compute. exact I.
  - rewrite (proj1 (detect_outliers_after_replace
                      [VInt 5; VBool true; VInt 50] 0)).
    + vm_compute. reflexivity.
    + apply (bool_decide_unpack _). vm_compute. exact I.
Defined.

Section fill_missing.
Implicit Types (r d : gmap string value).

Lemma fill_missing_fields_union r d : Cleaning.fill_missing_fields r d = r ∪ d.
Proof.
  unfold Cleaning.fill_missing_fields.
  apply (map_fold_weak_ind (λ filled (m : gmap string value), filled = r ∪ m)).
  { by rewrite (right_id_L ∅ (∪)). }
  intros k v m filled Hk ->.
  destruct (r !! k) as [w|] eqn:Hr.
  - rewrite (lookup_union_Some_l r m k w Hr). apply map_eq. intros k'.
    destruct (decide (k' = k)) as [->|Hne].
    + by rewrite !(lookup_union_Some_l r _ k w Hr).
    + rewrite !lookup_union. by rewrite lookup_insert_ne.
  - rewrite (lookup_union_r r m k Hr), Hk. by rewrite insert_union_r.
Qed.

End fill_missing.

(** X12: [fill_missing_fields]: every field the record has keeps its value, also
    a value [None]; every other field of the defaults is added with its
    default; the result has all the fields of the defaults, so
    [validate_mandatory_fields] accepts it for them; filling twice is
    filling once. *)
Theorem fill_missing_fields_defaults (r d : gmap string value) :
  (∀ k v, r !! k = Some v → Cleaning.fill_missing_fields r d !! k = Some v)
  ∧ (∀ k, r !! k = None → Cleaning.fill_missing_fields r d !! k = d !! k)
  ∧ Cleaning.validate_mandatory_fields (Cleaning.fill_missing_fields r d)
      (dom d) = true
  ∧ Cleaning.fill_missing_fields (Cleaning.fill_missing_fields r d) d
    = Cleaning.fill_missing_fields r d.
Proof.
  rewrite !fill_missing_fields_union. split; [|split; [|split]].
  - intros k v Hk. by apply lookup_union_Some_l.
  - intros k Hk. by apply lookup_union_r.
  - unfold Cleaning.validate_mandatory_fields. apply bool_decide_eq_true.
    rewrite dom_union_L. apply union_subseteq_r.
  - rewrite <-(assoc_L (∪)). by rewrite (idemp (∪) d).
Qed.

Lemma fill_missing_fields_defaults_witness :
  Cleaning.fill_missing_fields {[ "id" := VInt 1; "name" := VNone ]}
    {[ "name" := VStr "?"; "city" := VStr "-" ]} !! "name" = Some VNone
  ∧ Cleaning.fill_missing_fields {[ "id" := VInt 1; "name" := VNone ]}
      {[ "name" := VStr "?"; "city" := VStr "-" ]} !! "city"
    = Some (VStr "-").
Proof.
  split.
  - apply (proj1 (fill_missing_fields_defaults _ _)).
    vm_compute. reflexivity.
  - rewrite (proj1 (proj2 (fill_missing_fields_defaults _ _))).
    + vm_compute. reflexivity.
    + vm_compute. reflexivity.
Defined.

(** *** Schema checks *)

Section schema.
Implicit Types (T : table) (r : record).

Lemma validate_schema_Forall r T :
  Cleaning.validate_schema (r :: T) = true
  ↔ Forall (λ r', dom r' = dom r) (r :: T).
Proof.
  unfold Cleaning.validate_schema. rewrite forallb_forall, Forall_forall.
  split; intros H r' Hr'.
  - apply list_elem_of_In, H in Hr'. by apply bool_decide_eq_true in Hr'.
  - apply bool_decide_eq_true, H. by apply list_elem_of_In.
Qed.

Lemma isinstance_int_get r f :
  Cleaning.isinstance_int (get r f) = true →
  ∃ v, r !! f = Some v ∧ kind_of v = NumKind ∧ v ≠ VNone.
Proof.
  unfold get. destruct (r !! f) as [v|]; cbn; [|done].
  intros Hv. exists v. by destruct v.
Qed.

End schema.

(** X13: [validate_schema] accepts a table exactly when all its records have the
    same set of fields; it accepts every table [select_columns] returns. *)
Theorem validate_schema_uniform (T : table) (cols : list string) :
  (Cleaning.validate_schema T = true
   ↔ ∀ r1 r2 : record, r1 ∈ T → r2 ∈ T → dom r1 = dom r2)
  ∧ Cleaning.validate_schema (SQL.select_columns T cols) = true.
Proof.
  assert (Huni : ∀ T' : table,
    Cleaning.validate_schema T' = true
    ↔ ∀ r1 r2 : record, r1 ∈ T' → r2 ∈ T' → dom r1 = dom r2).
  { intros [|r T']; [split; [by intros _ ? ? ?%elem_of_nil|done]|].
    rewrite validate_schema_Forall, Forall_forall. split.
    - intros H r1 r2 H1 H2. by rewrite (H r1 H1), (H r2 H2).
    - intros H r' Hr'. apply H; [done|left]. }
  split; [apply Huni|]. apply Huni. intros r1 r2 H1 H2.
  assert (Hdom : ∀ o : record, o ∈ SQL.select_columns T cols →
                   dom o = list_to_set cols).
  { intros o Ho. unfold SQL.select_columns in Ho.
    apply list_elem_of_fmap in Ho as (r & -> & _).
    apply set_eq. intros c. rewrite elem_of_dom, select_fold_lookup.
    rewrite elem_of_list_to_set. case_decide as Hc.
    - split; [done|]. intros _. by eexists.
    - split; [|done]. by intros [? ?]. }
  by rewrite (Hdom r1 H1), (Hdom r2 H2).
Qed.

(** X14: [remove_invalid_ids] returns exactly the records of the table
    whose id field is present and holds an integer, a boolean included, each
    as often as in the table and in table order, and drops every other
    record; the records it returns are among the records
    [remove_null_records] keeps, in the same order, and a threshold filter
    on the id field of the result does not raise. *)
Theorem remove_invalid_ids_numbers (T : table) (f : string) (t : Z) :
  Cleaning.remove_invalid_ids T f = filter (holds_int f) T
  ∧ (∀ r, r ∈ Cleaning.remove_invalid_ids T f ↔ r ∈ T ∧ holds_int f r)
  ∧ Forall (λ r : record, ∃ v, r !! f = Some v ∧ Cleaning.isinstance_int v = true)
         (Cleaning.remove_invalid_ids T f)
  ∧ Cleaning.remove_invalid_ids T f
    `sublist_of` Cleaning.remove_null_records T f
  ∧ returns (SQL.where_greater_than (Cleaning.remove_invalid_ids T f) f
               (VInt t)).
Proof.
  assert (Cleaning.remove_invalid_ids T f = filter (holds_int f) T) as Hfilter.
  { unfold Cleaning.remove_invalid_ids. apply list_filter_iff. intros r.
    unfold holds_int, get. by destruct (r !! f) as [[]|]. }
  split; [exact Hfilter|]. split.
  { intros r. rewrite Hfilter, list_elem_of_filter. tauto. }
  split; [|split].
  - apply Forall_forall. intros r [Hr _]%list_elem_of_filter.
    unfold get in Hr. destruct (r !! f) as [v|]; [by exists v|done].
  - assert (Cleaning.remove_invalid_ids T f
            = Cleaning.remove_invalid_ids (Cleaning.remove_null_records T f) f)
      as ->; [|apply sublist_filter].
    rewrite remove_null_records_filter. unfold Cleaning.remove_invalid_ids.
    rewrite list_filter_filter. apply list_filter_iff. intros r.
    split; [|by intros [? _]]. intros Hr. split; [done|].
    by apply isinstance_int_get in Hr as (v & Hv & _ & Hne);
      unfold get; rewrite Hv.
  - rewrite where_greater_than_numbers; [by eexists|].
    apply Forall_forall. intros r [Hr _]%list_elem_of_filter.
    apply isinstance_int_get in Hr as (v & Hv & Hk & _).
    unfold number_or_absent, get_default. by rewrite Hv.
Qed.

(** X15: [validate_records] accepts a table exactly when every record has the
    fields ["id"], ["name"] and ["created_date"]; it accepts every table
    whose records went through [fill_missing_fields] with defaults for the
    three. *)
Theorem validate_records_required (T : table) (d : gmap string value) :
  (Basics.validate_records T = true
   ↔ Forall (λ r : record, has_field "id" r ∧ has_field "name" r
                           ∧ has_field "created_date" r) T)
  ∧ (has_field "id" d → has_field "name" d → has_field "created_date" d →
     Basics.validate_records
       ((λ r : record, Cleaning.fill_missing_fields r d) <$> T) = true).
Proof.
  assert (Hreq : ∀ T' : table,
    Basics.validate_records T' = true
    ↔ Forall (λ r : record, has_field "id" r ∧ has_field "name" r
                            ∧ has_field "created_date" r) T').
  { intros T'. unfold Basics.validate_records.
    rewrite forallb_forall, Forall_forall. unfold has_field.
    setoid_rewrite <-elem_of_dom. setoid_rewrite <-list_elem_of_In.
    setoid_rewrite bool_decide_eq_true.
    split; intros H r Hr; specialize (H r Hr).
    - repeat split; apply H; set_solver.
    - destruct H as (? & ? & ?). set_solver. }
  split; [apply Hreq|]. intros Hid Hname Hdate. apply Hreq.
  apply Forall_fmap, Forall_forall. intros r _. cbn.
  rewrite fill_missing_fields_union. unfold has_field in *.
  rewrite <-!elem_of_dom in *. rewrite dom_union_L. set_solver.
Qed.

Lemma validate_records_required_witness :
  Basics.validate_records
    ((λ r : record,
        Cleaning.fill_missing_fields r
          {[ "id" := VInt 0; "name" := VStr ""; "created_date" := VNone ]})
     <$> [ {[ "id" := VInt 4 ]}; ∅ ]) = true.
Proof.
  apply (proj2 (validate_records_required [ {[ "id" := VInt 4 ]}; ∅ ]
    {[ "id" := VInt 0; "name" := VStr ""; "created_date" := VNone ]})).
  - apply (bool_decide_unpack _). vm_compute. exact I.
  - apply (bool_decide_unpack _). vm_compute. exact I.
  - apply (bool_decide_unpack _). vm_compute. exact I.
Defined.

(** *** Sums, extremes and running totals *)

Section sums.
Implicit Types (values : list Z) (total : Z).



Lemma sum_list_Z_app values1 values2 :
  sum_list_Z (values1 ++ values2) = sum_list_Z values1 + sum_list_Z values2.
Proof.
  induction values1 as [|v values1 IH]; cbn; [done|].
  fold (sum_list_Z (values1 ++ values2)). fold (sum_list_Z values1). lia.
Qed.

Lemma foldl_min_spec v rest :
  foldl Z.min v rest ∈ v :: rest
  ∧ Forall (λ n, foldl Z.min v rest ≤ n) (v :: rest).
Proof.
  revert v. induction rest as [|x rest IH]; intros v; cbn [foldl].
  { split; [left|]. constructor; [lia|constructor]. }
  destruct (IH (Z.min v x)) as [Hin Hle]. split.
  - apply elem_of_cons in Hin as [->|Hin].
    + destruct (Z.min_spec v x) as [[_ ->]|[_ ->]]; [left|right; left].
    + by do 2 right.
  - apply Forall_cons in Hle as [Hm Hle].
    constructor; [lia|]. constructor; [lia|done].
Qed.

Lemma foldl_max_spec v rest :
  foldl Z.max v rest ∈ v :: rest
  ∧ Forall (λ n, n ≤ foldl Z.max v rest) (v :: rest).
Proof.
  revert v. induction rest as [|x rest IH]; intros v; cbn [foldl].
  { split; [left|]. constructor; [lia|constructor]. }
  destruct (IH (Z.max v x)) as [Hin Hle]. split.
  - apply elem_of_cons in Hin as [->|Hin].
    + destruct (Z.max_spec v x) as [[_ ->]|[_ ->]]; [right; left|left].
    + by do 2 right.
  - apply Forall_cons in Hle as [Hm Hle].
    constructor; [lia|]. constructor; [lia|done].
Qed.

Lemma py_min_spec values :
  values ≠ [] →
  ∃ lo, py_min values = Ok lo ∧ lo ∈ values ∧ Forall (λ n, lo ≤ n) values.
Proof.
  destruct values as [|v rest]; [done|]. intros _.
  exists (foldl Z.min v rest). split; [done|]. apply foldl_min_spec.
Qed.

Lemma py_max_spec values :
  values ≠ [] →
  ∃ hi, py_max values = Ok hi ∧ hi ∈ values ∧ Forall (λ n, n ≤ hi) values.
Proof.
  destruct values as [|v rest]; [done|]. intros _.
  exists (foldl Z.max v rest). split; [done|]. apply foldl_max_spec.
Qed.




End sums.



Section total_sales.
Implicit Types (T : table).

Lemma calculate_total_sales_from_numbers T total :
  Forall (number_or_absent "amount") T →
  Transformations.calculate_total_sales_from T total
  = Ok (total + sum_list_Z (field_number "amount" <$> T)).
Proof.
  intros HT. revert total.
  induction HT as [|r T Hr HT IH]; intros total; cbn.
  { f_equal. lia. }
  rewrite py_add_int_number by done. cbn. rewrite IH. f_equal.
  fold (sum_list_Z (field_number "amount" <$> T)). lia.
Qed.

Lemma calculate_total_sales_from_raises T total :
  Exists (λ r, ¬ number_or_absent "amount" r) T →
  Transformations.calculate_total_sales_from T total = Raise TypeError.
Proof.
  revert total. induction T as [|r T IH]; intros total HT.
  { by apply Exists_nil in HT. }
  cbn [Transformations.calculate_total_sales_from].
  destruct (decide (number_or_absent "amount" r)) as [Hr|Hr].
  - rewrite py_add_int_number by done. cbn. apply IH.
    by apply Exists_cons in HT as [?|?].
  - by rewrite py_add_int_not_number.
Qed.

End total_sales.

(** X17: [calculate_total_sales] on integer amounts: on a table whose
    ["amount"] is an integer (a boolean included) or absent in every record
    it returns the exact integer sum of the amounts, a record without one
    counting as [0], so the total of two such tables put together is the sum
    of their totals; on a table of records whose values are [None],
    booleans, integers or text, an amount that is [None] or text makes it
    raise [TypeError]. *)
Theorem calculate_total_sales_sum (T1 T2 : table) :
  (Forall (number_or_absent "amount") T1 →
     Transformations.calculate_total_sales T1
     = Ok (sum_list_Z (field_number "amount" <$> T1)))
  ∧ (Forall (number_or_absent "amount") T1 →
     Forall (number_or_absent "amount") T2 →
     ∃ t1 t2, Transformations.calculate_total_sales T1 = Ok t1
              ∧ Transformations.calculate_total_sales T2 = Ok t2
              ∧ Transformations.calculate_total_sales (T1 ++ T2)
                = Ok (t1 + t2))
  ∧ (Exists (λ r, ¬ number_or_absent "amount" r) T1 →
     Transformations.calculate_total_sales T1 = Raise TypeError).
Proof.
  unfold Transformations.calculate_total_sales. split; [|split].
  - intros H1. rewrite calculate_total_sales_from_numbers by done.
    f_equal; lia.
  - intros H1 H2. eexists _, _.
    rewrite !calculate_total_sales_from_numbers
      by (try apply Forall_app; done).
    split; [done|]. split; [done|]. f_equal.
    rewrite fmap_app, sum_list_Z_app; lia.
  - apply calculate_total_sales_from_raises.
Qed.

Lemma calculate_total_sales_sum_witness :
  Transformations.calculate_total_sales
    [ {[ "amount" := VInt 5 ]}; ∅; {[ "amount" := VInt 7 ]} ] = Ok 12
  ∧ Transformations.calculate_total_sales [ {[ "amount" := VStr "5" ]} ]
    = Raise TypeError.
Proof.
  split.
  - rewrite (proj1 (calculate_total_sales_sum
               [ {[ "amount" := VInt 5 ]}; ∅; {[ "amount" := VInt 7 ]} ] [])).
    + vm_compute. reflexivity.
    + apply (bool_decide_unpack _). vm_compute. exact I.
  - apply (proj2 (proj2 (calculate_total_sales_sum
                           [ {[ "amount" := VStr "5" ]} ] []))).
    apply (bool_decide_unpack _). vm_compute. exact I.
Defined.

(** *** Buckets and groups of records *)

Section buckets.
Implicit Types (values : list Z) (size : Z) (T : table) (κ : hkey).

Lemma bucketize_values_from_spec values size (buckets : gmap Z (list Z)) :
  size ≠ 0 →
  ∃ m, Transformations.bucketize_values_from values size buckets = Ok m
       ∧ ∀ k, m !! k
              = let group := filter (λ v, v `div` size * size = k) values in
                match buckets !! k with
                | Some l => Some (l ++ group)%list
                | None => if decide (group = []) then None else Some group
                end.
Proof.
  intros Hsize. revert buckets.
  induction values as [|v values IH]; intros buckets.
  { exists buckets. split; [done|]. intros k. cbn.
    destruct (buckets !! k) as [l|]; [by rewrite app_nil_r|done]. }
  destruct (IH (<[v `div` size * size :=
                  (default [] (buckets !! (v `div` size * size)) ++ [v])%list]>
                buckets)) as (m & Hm & Hlook).
  exists m. split.
  { cbn [Transformations.bucketize_values_from]. unfold py_floordiv.
    destruct (Z.eqb_spec size 0) as [?|_]; [done|]. exact Hm. }
  intros k. rewrite Hlook, filter_cons. cbn zeta.
  destruct (decide (v `div` size * size = k)) as [Hk|Hk].
  - rewrite Hk, lookup_insert_eq.
    destruct (buckets !! k) as [l|]; cbn [default]; unfold id.
    + by rewrite <-app_assoc.
    + by rewrite decide_False.
  - by rewrite lookup_insert_ne.
Qed.

Lemma bucket_bounds v size :
  0 < size → v `div` size * size ≤ v < v `div` size * size + size.
Proof.
  intros Hsize. pose proof (Z.mod_pos_bound v size Hsize).
  pose proof (Z.div_mod v size). lia.
Qed.

Lemma group_records_by_key_from_spec T key (grouped : gmap hkey table) :
  Forall (has_field key) T →
  ∃ m, Transformations.group_records_by_key_from T key grouped = Ok m
       ∧ ∀ κ, m !! κ
              = let group := filter (λ r, field_key key r = κ) T in
                match grouped !! κ with
                | Some l => Some (l ++ group)%list
                | None => if decide (group = []) then None else Some group
                end.
Proof.
  intros HT. revert grouped.
  induction HT as [|r T Hr HT IH]; intros grouped.
  { exists grouped. split; [done|]. intros κ. cbn.
    destruct (grouped !! κ) as [l|]; [by rewrite app_nil_r|done]. }
  destruct (getitem_has_field r key Hr) as (v & Hv & Hkey).
  destruct (IH (<[key_of v :=
                  (default [] (grouped !! key_of v) ++ [r])%list]> grouped))
    as (m & Hm & Hlook).
  exists m. split.
  { cbn [Transformations.group_records_by_key_from]. rewrite Hv. exact Hm. }
  intros κ. rewrite Hlook, Hkey, filter_cons. cbn zeta.
  destruct (decide (field_key key r = κ)) as [Hκ|Hκ].
  - rewrite Hκ, lookup_insert_eq.
    destruct (grouped !! κ) as [l|]; cbn [default]; unfold id.
    + by rewrite <-app_assoc.
    + by rewrite decide_False.
  - by rewrite lookup_insert_ne.
Qed.

Lemma group_records_by_key_from_raises T key (grouped : gmap hkey table) :
  ¬ Forall (has_field key) T →
  Transformations.group_records_by_key_from T key grouped = Raise KeyError.
Proof.
  revert grouped. induction T as [|r T IH]; intros grouped HT.
  { destruct HT. constructor. }
  cbn [Transformations.group_records_by_key_from].
  destruct (decide (has_field key r)) as [Hr|Hr].
  - destruct (getitem_has_field r key Hr) as (v & -> & _). cbn.
    apply IH. intros HT'. apply HT. by constructor.
  - by rewrite getitem_lacks_field.
Qed.

End buckets.

(** X18: [bucketize_values] on a list of integers with an integer bucket
    size other than [0] returns the dictionary whose bucket [k] holds, in
    input order, the values [v] with [(v // size) * size = k], and has no
    empty bucket; for a positive size every value of bucket [k] is in
    [k ≤ v < k + size].  With the integer size [0] it raises
    [ZeroDivisionError] at the first value, and returns the empty dictionary
    for an empty input. *)
Theorem bucketize_values_buckets (values : list Z) (size : Z) :
  (size ≠ 0 →
     ∃ m, Transformations.bucketize_values values size = Ok m
          ∧ (∀ k, m !! k
                  = let group := filter (λ v, v `div` size * size = k) values
                    in if decide (group = []) then None else Some group)
          ∧ (0 < size → ∀ k l v, m !! k = Some l → v ∈ l → k ≤ v < k + size))
  ∧ (values ≠ [] →
     Transformations.bucketize_values values 0 = Raise ZeroDivisionError)
  ∧ Transformations.bucketize_values [] 0 = Ok ∅.
Proof.
  split; [|split; [|done]].
  - intros Hsize.
    destruct (bucketize_values_from_spec values size ∅ Hsize)
      as (m & Hm & Hlook).
    exists m. split; [done|].
    assert (Hk : ∀ k, m !! k
      = let group := filter (λ v, v `div` size * size = k) values
        in if decide (group = []) then None else Some group).
    { intros k. by rewrite Hlook, lookup_empty. }
    split; [done|]. intros Hpos k l v Hl Hv. rewrite Hk in Hl. cbn zeta in Hl.
    case_decide; [done|]. injection Hl as <-.
    apply list_elem_of_filter in Hv as [<- _]. by apply bucket_bounds.
  - by destruct values.
Qed.

Lemma bucketize_values_buckets_witness :
  (∃ m, Transformations.bucketize_values [1; 12; -3; 15] 10 = Ok m
        ∧ m !! 10 = Some [12; 15] ∧ m !! (-10) = Some [-3] ∧ m !! 20 = None)
  ∧ Transformations.bucketize_values [1] 0 = Raise ZeroDivisionError.
Proof.
  split.
  - destruct (proj1 (bucketize_values_buckets [1; 12; -3; 15] 10))
      as (m & Hm & Hlook & _); [lia|].
    exists m. split; [exact Hm|]. rewrite !Hlook. vm_compute. done.
  - by apply (proj1 (proj2 (bucketize_values_buckets [1] 0))).
Defined.

(** X19: [group_records_by_key]: where every record has the key field, it returns
    the dictionary that maps each value of the field to the records that
    carry it, in table order, and [group_by_count] counts the records of
    each group; a record without the field makes it raise [KeyError]. *)
Theorem group_records_by_key_groups (T : table) (key : string) :
  (Forall (has_field key) T →
     ∃ m counts,
       Transformations.group_records_by_key T key = Ok m
       ∧ SQL.group_by_count T key = Ok counts
       ∧ (∀ κ, m !! κ
               = let group := filter (λ r, field_key key r = κ) T in
                 if decide (group = []) then None else Some group)
       ∧ ∀ κ, counts !! κ = (λ l : table, Z.of_nat (length l)) <$> m !! κ)
  ∧ (¬ Forall (has_field key) T →
     Transformations.group_records_by_key T key = Raise KeyError).
Proof.
  split; [|apply group_records_by_key_from_raises].
  intros HT.
  destruct (group_records_by_key_from_spec T key ∅ HT) as (m & Hm & Hlook).
  destruct (proj1 (group_by_count_counts T key) HT)
    as (counts & Hcounts & Hclook).
  exists m, counts. split; [done|]. split; [done|].
  assert (Hk : ∀ κ, m !! κ
    = let group := filter (λ r, field_key key r = κ) T in
      if decide (group = []) then None else Some group).
  { intros κ. by rewrite Hlook, lookup_empty. }
  split; [done|]. intros κ. rewrite Hclook, Hk. cbn zeta.
  destruct (filter (λ r, field_key key r = κ) T) as [|r l] eqn:E.
  - by rewrite !decide_True.
  - by rewrite !decide_False.
Qed.

Lemma group_records_by_key_groups_witness :
  (∃ m, Transformations.group_records_by_key
          [ {[ "k" := VInt 1; "n" := VStr "a" ]}; {[ "k" := VInt 2 ]};
            {[ "k" := VBool true; "n" := VStr "b" ]} ] "k" = Ok m
        ∧ m !! KNum 1 = Some [ {[ "k" := VInt 1; "n" := VStr "a" ]};
                               {[ "k" := VBool true; "n" := VStr "b" ]} ])
  ∧ Transformations.group_records_by_key [ ∅ ] "k" = Raise KeyError.
Proof.
  split.
  - destruct (proj1 (group_records_by_key_groups
        [ {[ "k" := VInt 1; "n" := VStr "a" ]}; {[ "k" := VInt 2 ]};
          {[ "k" := VBool true; "n" := VStr "b" ]} ] "k"))
      as (m & counts & Hm & _ & Hlook & _).
    + apply (bool_decide_unpack _). vm_compute. exact I.
    + exists m. split; [exact Hm|]. rewrite Hlook. vm_compute. done.
  - apply (proj2 (group_records_by_key_groups [ ∅ ] "k")).
    intros H. apply (bool_decide_pack _) in H. vm_compute in H. exact H.
Defined.

(** *** Statistics *)

Section statistics.
Implicit Types (values numbers : list Z).

Lemma map_raising_Raise_inv {A B} (f : A → result B) (l : list A) e :
  map_raising f l = Raise e → ∃ x, x ∈ l ∧ f x = Raise e.
Proof.
  induction l as [|x l IH]; cbn [map_raising]; [done|].
  destruct (f x) as [y|e'] eqn:E; cbn.
  - destruct (map_raising f l) as [ys|e'']; cbn; [done|].
    intros [= <-]. destruct (IH eq_refl) as (x' & Hx' & Hf).
    exists x'. split; [by right|done].
  - intros [= <-]. exists x. split; [left|done].
Qed.

Lemma map_raising_length {A B} (f : A → result B) (l : list A) out :
  map_raising f l = Ok out → length out = length l.
Proof.
  revert out. induction l as [|x l IH]; intros out; cbn [map_raising].
  { by intros [= <-]. }
  destruct (f x) as [y|]; cbn; [|done].
  destruct (map_raising f l) as [ys|]; cbn; [|done].
  intros [= <-]. cbn. by rewrite (IH ys).
Qed.


End statistics.

(** X20: [normalize_values] raises [ValueError] on an empty list (from
    [min]); on a non-empty list of equal integers it returns a list of [0]s
    of the same length; on a list of integers it never raises
    [ZeroDivisionError], and what it returns has the length of its input. *)
Theorem normalize_values_edges (values : list Z) :
  Transformations.normalize_values [] = Raise ValueError
  ∧ (∀ c, values ≠ [] → Forall (λ v, v = c) values →
       Transformations.normalize_values values
       = Ok (replicate (length values) (NInt 0)))
  ∧ Transformations.normalize_values values ≠ Raise ZeroDivisionError
  ∧ (∀ out, Transformations.normalize_values values = Ok out →
       length out = length values).
Proof.
  split; [done|]. unfold Transformations.normalize_values.
  destruct (decide (values = [])) as [->|Hne].
  { split; [done|]. split; [done|]. cbn. by intros out [= <-]. }
  destruct (py_min_spec values Hne) as (lo & -> & Hlo & _).
  destruct (py_max_spec values Hne) as (hi & -> & Hhi & _). cbn.
  split; [|split].
  - intros c _ Hc.
    pose proof (proj1 (Forall_forall _ _) Hc lo Hlo) as ->.
    pose proof (proj1 (Forall_forall _ _) Hc hi Hhi) as ->.
    rewrite (map_raising_Ok _ (λ _, NInt 0)).
    + f_equal. clear. induction values as [|v values IH]; [done|].
      cbn. by rewrite IH.
    + apply Forall_forall. intros v _. by rewrite decide_False by tauto.
  - intros (v & _ & Hv)%map_raising_Raise_inv.
    case_decide as Hd; [|done].
    destruct (int_truediv (v - lo) (hi - lo)) as [q|e] eqn:E; [done|].
    injection Hv as ->. apply int_truediv_nonzero in E; [done|lia].
  - intros out. apply map_raising_length.
Qed.

Lemma normalize_values_edges_witness :
  Transformations.normalize_values [4; 4; 4] = Ok [NInt 0; NInt 0; NInt 0].
Proof.
  apply (proj1 (proj2 (normalize_values_edges [4; 4; 4])) 4); [done|].
  repeat constructor.
Defined.



(** *** Sorting by a field *)

Section sorted_by.
Context {A B : Type} (g : A → B) (key : B → value).
Implicit Types (x : A) (l : list A).

Lemma sorted_insert_fmap x l :
  sorted_insert key (g x) (g <$> l)
  = (λ s : list A, g <$> s) <$> sorted_insert (key ∘ g) x l.
Proof.
  induction l as [|y l IH]; [done|].
  cbn [fmap list_fmap sorted_insert compose].
  destruct (py_lt (key (g y)) (key (g x))) as [[]|e]; cbn; [|done|done].
  fold (fmap g l). rewrite IH.
  by destruct (sorted_insert (key ∘ g) x l).
Qed.

Lemma sorted_asc_fmap l :
  sorted_asc key (g <$> l) = (λ s : list A, g <$> s) <$> sorted_asc (key ∘ g) l.
Proof.
  induction l as [|x l IH]; [done|].
  cbn [fmap list_fmap sorted_asc]. fold (fmap g l). rewrite IH.
  destruct (sorted_asc (key ∘ g) l) as [s|]; cbn; [|done].
  apply sorted_insert_fmap.
Qed.

Lemma sorted_fmap l rev :
  sorted key (g <$> l) rev = (λ s : list A, g <$> s) <$> sorted (key ∘ g) l rev.
Proof.
  unfold sorted. destruct rev; [|apply sorted_asc_fmap].
  rewrite <-fmap_reverse, sorted_asc_fmap.
  destruct (sorted_asc (key ∘ g) (reverse l)) as [s|]; cbn; [|done].
  by rewrite fmap_reverse.
Qed.

End sorted_by.

Section sorted_by_key.
Context {A : Type}.
Implicit Types (key : A → result value) (k : A → value) (items : list A).

Lemma zip_fmap_r k items :
  zip items (k <$> items) = (λ x, (x, k x)) <$> items.
Proof. induction items as [|x items IH]; cbn; [done|]. by rewrite IH. Qed.

(** Where the key function returns on every item, sorting by it is sorting
    by the keys it returns. *)
Lemma sorted_by_Ok key k items rev :
  Forall (λ x, key x = Ok (k x)) items →
  sorted_by key items rev = sorted k items rev.
Proof.
  intros Hkey. unfold sorted_by. rewrite (map_raising_Ok key k) by done.
  cbn. rewrite zip_fmap_r, (sorted_fmap (λ x, (x, k x)) snd).
  change (snd ∘ (λ x, (x, k x))) with k.
  destruct (sorted k items rev) as [s|]; cbn; [|done].
  f_equal. rewrite <-list_fmap_compose. apply list_fmap_id.
Qed.

Lemma sorted_by_Raise key items rev e :
  Forall (λ x, key x = Raise e ∨ returns (key x)) items →
  Exists (λ x, key x = Raise e) items →
  sorted_by key items rev = Raise e.
Proof.
  intros Hall Hex. unfold sorted_by.
  by rewrite (map_raising_Raise key items e).
Qed.

End sorted_by_key.

Section by_field.
Implicit Types (T : table) (r : record).

Lemma getitem_get r f : has_field f r → getitem r f = Ok (get r f).
Proof. intros [v Hv]. unfold getitem, get. by rewrite Hv. Qed.

Lemma sorted_by_getitem T f rev :
  Forall (has_field f) T →
  sorted_by (λ x, getitem x f) T rev = sorted (λ x, get x f) T rev.
Proof.
  intros HT. apply sorted_by_Ok. eapply Forall_impl; [exact HT|].
  intros r Hr. by apply getitem_get.
Qed.

Lemma sorted_by_getitem_raises T f rev :
  ¬ Forall (has_field f) T →
  sorted_by (λ x, getitem x f) T rev = Raise KeyError.
Proof.
  intros HT. apply sorted_by_Raise.
  - apply Forall_forall. intros r _.
    destruct (decide (has_field f r)) as [Hr|Hr].
    + right. rewrite getitem_get by done. by eexists.
    + left. by apply getitem_lacks_field.
  - apply not_Forall_Exists in HT; [|apply _].
    eapply Exists_impl; [exact HT|]. intros r Hr.
    by apply getitem_lacks_field.
Qed.

Lemma key_le_numbers (a b : value) :
  key_le a b → kind_of a = NumKind → value_number a ≤ value_number b.
Proof.
  unfold key_le, py_lt, kind_of, value_number.
  destruct (key_of a), (key_of b); try done. intros [= H] _. lia.
Qed.

Lemma sorted_field_numbers f (l : table) :
  StronglySorted (λ r1 r2, key_le (get_default r1 f (VInt 0))
                                  (get_default r2 f (VInt 0))) l →
  Forall (number_or_absent f) l →
  StronglySorted (λ r1 r2, field_number f r1 ≤ field_number f r2) l.
Proof.
  induction 1 as [|r l Hsorted IH Hr]; intros Hnum; [constructor|].
  apply Forall_cons in Hnum as [Hrn Hnum].
  constructor; [by apply IH|].
  eapply Forall_impl; [exact Hr|]. intros r' Hle. cbn in Hle.
  by apply key_le_numbers in Hle.
Qed.

End by_field.

Lemma order_by_sorts_witness :
  ∃ out, SQL.order_by [ {[ "a" := VInt 3 ]}; {[ "a" := VBool true ]};
                        {[ "a" := VInt 2 ]} ] "a" true = Ok out
         ∧ out = [ {[ "a" := VBool true ]}; {[ "a" := VInt 2 ]};
                   {[ "a" := VInt 3 ]} ].
Proof.
  destruct (order_by_sorts
              [ {[ "a" := VInt 3 ]}; {[ "a" := VBool true ]};
                {[ "a" := VInt 2 ]} ] "a" true NumKind)
    as (out & Hout & _).
  - split; [done|]. apply (bool_decide_unpack _). vm_compute. exact I.
  - exists out. split; [exact Hout|].
    vm_compute in Hout. by injection Hout as <-.
Defined.

(** X23: [sort_records_by_field]: on a table whose field is an integer (a
    boolean included) or absent in every record it returns the records in
    ascending order of the field, a record without the field ordered as
    [0], records of equal value in table order. *)
Theorem sort_records_by_field_missing_is_zero (T : table) (f : string) :
  Forall (number_or_absent f) T →
  ∃ out, Transformations.sort_records_by_field T f = Ok out
         ∧ out ≡ₚ T
         ∧ StronglySorted (λ r1 r2, field_number f r1 ≤ field_number f r2) out
         ∧ ∀ n, filter (λ r, field_number f r = n) out
                = filter (λ r, field_number f r = n) T.
Proof.
  intros HT. unfold Transformations.sort_records_by_field.
  assert (Hkind : same_kind (λ x : record, get_default x f (VInt 0)) NumKind T)
    by (split; done).
  destruct (sorted_total _ T false NumKind Hkind) as [out Hout].
  exists out. split; [done|].
  assert (Hperm := sorted_perm _ _ _ _ Hout). split; [done|].
  assert (Hnum : Forall (number_or_absent f) out) by (by rewrite Hperm).
  assert (Hkey : ∀ r : record, number_or_absent f r →
            key_of (get_default r f (VInt 0)) = KNum (field_number f r)).
  { intros r. unfold number_or_absent, kind_of, field_number.
    by destruct (key_of (get_default r f (VInt 0))). }
  split.
  - apply sorted_sorted in Hout. cbn in Hout.
    by apply sorted_field_numbers.
  - intros n.
    pose proof (sorted_filter _ _ _ _ (KNum n) Hout) as Hstable.
    cbn in Hstable.
    assert (Heq : ∀ l : table, Forall (number_or_absent f) l →
      filter (λ r, field_number f r = n) l
      = filter (λ r, key_of (get_default r f (VInt 0)) = KNum n) l).
    { intros l Hl. induction Hl as [|r l Hr Hl IH]; [done|].
      rewrite !filter_cons, IH, (Hkey r Hr).
      destruct (decide (field_number f r = n)) as [->|Hne].
      - by rewrite decide_True.
      - by rewrite decide_False by congruence. }
    by rewrite !Heq.
Qed.

Lemma sort_records_by_field_missing_is_zero_witness :
  ∃ out, Transformations.sort_records_by_field
           [ {[ "a" := VInt 2 ]}; ∅; {[ "a" := VInt (-1) ]} ] "a" = Ok out
         ∧ out = [ {[ "a" := VInt (-1) ]}; ∅; {[ "a" := VInt 2 ]} ].
Proof.
  destruct (sort_records_by_field_missing_is_zero
              [ {[ "a" := VInt 2 ]}; ∅; {[ "a" := VInt (-1) ]} ] "a")
    as (out & Hout & _).
  - apply (bool_decide_unpack _). vm_compute. exact I.
  - exists out. split; [exact Hout|].
    vm_compute in Hout. by injection Hout as <-.
Defined.

(** X24: [sort_records_by_timestamp]: where every record has ["timestamp"] it is
    [order_by] on that field, ascending; a record without it makes it raise
    [KeyError], whatever the other timestamps are, because the keys are read
    before anything is compared. *)
Theorem sort_records_by_timestamp_order_by (T : table) :
  (Forall (has_field "timestamp") T →
     Basics.sort_records_by_timestamp T = SQL.order_by T "timestamp" true)
  ∧ (¬ Forall (has_field "timestamp") T →
     Basics.sort_records_by_timestamp T = Raise KeyError).
Proof.
  split; [apply sorted_by_getitem|apply sorted_by_getitem_raises].
Qed.

Lemma sort_records_by_timestamp_order_by_witness :
  Basics.sort_records_by_timestamp
    [ {[ "timestamp" := VStr "b" ]}; {[ "timestamp" := VStr "a" ]} ]
  = Ok [ {[ "timestamp" := VStr "a" ]}; {[ "timestamp" := VStr "b" ]} ]
  ∧ Basics.sort_records_by_timestamp
      [ {[ "timestamp" := VStr "b" ]}; {[ "timestamp" := VInt 1 ]}; ∅ ]
    = Raise KeyError.
Proof.
  split.
  - rewrite (proj1 (sort_records_by_timestamp_order_by _)).
    + vm_compute. reflexivity.
    + apply (bool_decide_unpack _). vm_compute. exact I.
  - apply (proj2 (sort_records_by_timestamp_order_by _)).
    intros H. apply (bool_decide_pack _) in H. vm_compute in H. exact H.
Defined.

(** X25: [rank_records]: where every record has the field, it is [order_by] on
    the field, descending, with the position of every record, from [1],
    written under ["rank"]; so the output has the length of the input and
    the ranks [1], [2], ... in order, records of equal value with different
    ranks.  A record without the field makes it raise [KeyError]. *)
Theorem rank_records_positions (T : table) (f : string) :
  (Forall (has_field f) T →
     Transformations.rank_records T f
     = imap (λ i (r : record), <["rank" := VInt (Z.of_nat i + 1)]> r)
         <$> SQL.order_by T f false)
  ∧ (∀ out, Transformations.rank_records T f = Ok out →
       length out = length T
       ∧ ∀ i r, out !! i = Some r →
                r !! "rank" = Some (VInt (Z.of_nat i + 1)))
  ∧ (¬ Forall (has_field f) T →
     Transformations.rank_records T f = Raise KeyError).
Proof.
  assert (Hdef : Forall (has_field f) T →
     Transformations.rank_records T f
     = imap (λ i (r : record), <["rank" := VInt (Z.of_nat i + 1)]> r)
         <$> SQL.order_by T f false).
  { intros HT. unfold Transformations.rank_records, SQL.order_by.
    rewrite sorted_by_getitem by done. cbn [negb].
    by destruct (sorted _ T true). }
  assert (Hraise : ¬ Forall (has_field f) T →
     Transformations.rank_records T f = Raise KeyError).
  { intros HT. unfold Transformations.rank_records.
    by rewrite sorted_by_getitem_raises. }
  split; [done|]. split; [|done]. intros out Hout.
  destruct (decide (Forall (has_field f) T)) as [HT|HT];
    [|by rewrite Hraise in Hout].
  rewrite Hdef in Hout by done. unfold SQL.order_by in Hout.
  destruct (sorted _ T (negb false)) as [s|] eqn:Hs; [|done].
  injection Hout as <-. split.
  - rewrite length_imap. apply Permutation_length. by eapply sorted_perm.
  - intros i r. rewrite list_lookup_imap.
    destruct (s !! i) as [r'|]; cbn; [|done].
    intros [= <-]. apply lookup_insert_eq.
Qed.

Lemma rank_records_positions_witness :
  Transformations.rank_records
    [ {[ "v" := VInt 5 ]}; {[ "v" := VInt 9 ]}; {[ "v" := VInt 5; "n" := VInt 0 ]} ]
    "v"
  = Ok [ {[ "v" := VInt 9; "rank" := VInt 1 ]};
         {[ "v" := VInt 5; "rank" := VInt 2 ]};
         {[ "v" := VInt 5; "n" := VInt 0; "rank" := VInt 3 ]} ].
Proof.
  rewrite (proj1 (rank_records_positions _ "v")).
  - vm_compute. reflexivity.
  - apply (bool_decide_unpack _). vm_compute. exact I.
Defined.

(** *** Missing keys *)

Section missing_keys.
Implicit Types (T L R : table) (r : record).

Lemma remove_duplicate_records_loop_raises T seen :
  ¬ Forall (has_field "customer_id") T →
  Basics.remove_duplicate_records_loop T seen = Raise KeyError.
Proof.
  revert seen. induction T as [|r T IH]; intros seen HT.
  { destruct HT. constructor. }
  cbn [Basics.remove_duplicate_records_loop].
  destruct (decide (has_field "customer_id" r)) as [Hr|Hr].
  - destruct (getitem_has_field r _ Hr) as (v & -> & _). cbn.
    assert (¬ Forall (has_field "customer_id") T) as HT'
      by (intros ?; apply HT; by constructor).
    case_decide; by rewrite IH.
  - by rewrite getitem_lacks_field.
Qed.

Lemma filter_transactions_cond r t :
  has_field "amount" r →
  (v ← getitem r "amount"; py_gt v (VInt t))
  = py_gt (get_default r "amount" (VInt 0)) (VInt t).
Proof.
  intros [v Hv]. unfold getitem, get_default. by rewrite Hv.
Qed.

End missing_keys.

(** X26: The joins and the key of the right table: a record of the right table
    without the key makes every join raise [KeyError], also for an empty
    left table.  Where the right table is sound and a left record is without
    the key, the SQL-like joins return and the inner join of the
    transformations file raises [KeyError]. *)
Theorem join_key_errors (L R : table) (k : string) :
  (¬ Forall (has_field k) R →
     SQL.inner_join L R k = Raise KeyError
     ∧ SQL.left_join L R k = Raise KeyError
     ∧ Transformations.inner_join L R k = Raise KeyError)
  ∧ (Forall (has_field k) R → ¬ Forall (has_field k) L →
     returns (SQL.inner_join L R k)
     ∧ returns (SQL.left_join L R k)
     ∧ Transformations.inner_join L R k = Raise KeyError).
Proof.
  unfold SQL.inner_join, SQL.left_join, Transformations.inner_join,
    right_lookup_of.
  split.
  - intros HR. by rewrite (right_lookup_from_raises R k ∅ HR).
  - intros HR HL.
    destruct (right_lookup_from_spec R k ∅ HR) as (m & -> & _). cbn.
    split; [by eexists|]. split; [by eexists|].
    by apply inner_join_loop_raises.
Qed.

Lemma join_key_errors_witness :
  SQL.inner_join [] [ ∅ ] "id" = Raise KeyError
  ∧ Transformations.inner_join [ ∅ ] [ {[ "id" := VInt 1 ]} ] "id"
    = Raise KeyError
  ∧ returns (SQL.inner_join [ ∅ ] [ {[ "id" := VInt 1 ]} ] "id").
Proof.
  split; [|split].
  - apply (proj1 (join_key_errors [] [ ∅ ] "id")).
    intros H. apply (bool_decide_pack _) in H. vm_compute in H. exact H.
  - apply (proj2 (join_key_errors [ ∅ ] [ {[ "id" := VInt 1 ]} ] "id")).
    + apply (bool_decide_unpack _). vm_compute. exact I.
    + intros H. apply (bool_decide_pack _) in H. vm_compute in H. exact H.
  - apply (proj2 (join_key_errors [ ∅ ] [ {[ "id" := VInt 1 ]} ] "id")).
    + apply (bool_decide_unpack _). vm_compute. exact I.
    + intros H. apply (bool_decide_pack _) in H. vm_compute in H. exact H.
Defined.

(** X27: [remove_duplicate_records]: where every record has ["customer_id"] it is
    [remove_duplicates] on that field; a record without it makes it raise
    [KeyError], where [remove_duplicates] would take the record's key to be
    [None]. *)
Theorem remove_duplicate_records_customer_id (T : table) :
  (Forall (has_field "customer_id") T →
     Basics.remove_duplicate_records T
     = Ok (Cleaning.remove_duplicates T "customer_id"))
  ∧ (¬ Forall (has_field "customer_id") T →
     Basics.remove_duplicate_records T = Raise KeyError).
Proof.
  split.
  - apply remove_duplicate_records_loop_agree.
  - apply remove_duplicate_records_loop_raises.
Qed.

Lemma remove_duplicate_records_customer_id_witness :
  Basics.remove_duplicate_records
    [ {[ "customer_id" := VInt 1; "n" := VInt 1 ]};
      {[ "customer_id" := VInt 1; "n" := VInt 2 ]} ]
  = Ok [ {[ "customer_id" := VInt 1; "n" := VInt 1 ]} ]
  ∧ Basics.remove_duplicate_records [ {[ "customer_id" := VInt 1 ]}; ∅ ]
    = Raise KeyError.
Proof.
  split.
  - rewrite (proj1 (remove_duplicate_records_customer_id _)).
    + vm_compute. reflexivity.
    + apply (bool_decide_unpack _). vm_compute. exact I.
  - apply (proj2 (remove_duplicate_records_customer_id _)).
    intros H. apply (bool_decide_pack _) in H. vm_compute in H. exact H.
Defined.

(** X28: [filter_transactions] with an integer threshold: where every record has
    an ["amount"] it is [where_greater_than] on ["amount"]; on a table of
    numeric amounts in which some record has none it raises [KeyError],
    where [where_greater_than] counts the missing amount as [0]. *)
Theorem filter_transactions_amount (T : table) (t : Z) :
  (Forall (has_field "amount") T →
     Basics.filter_transactions T (VInt t)
     = SQL.where_greater_than T "amount" (VInt t))
  ∧ (Forall (number_or_absent "amount") T →
     ¬ Forall (has_field "amount") T →
     Basics.filter_transactions T (VInt t) = Raise KeyError
     ∧ returns (SQL.where_greater_than T "amount" (VInt t))).
Proof.
  unfold Basics.filter_transactions. split.
  - intros HT. unfold SQL.where_greater_than.
    induction HT as [|r T Hr HT IH]; [done|].
    cbn [filter_raising]. by rewrite filter_transactions_cond, IH.
  - intros Hnum HT. split.
    + apply filter_raising_Raise.
      * apply Forall_forall. intros r Hr.
        destruct (decide (has_field "amount" r)) as [Hf|Hf].
        -- right. rewrite filter_transactions_cond by done.
           rewrite py_gt_number; [by eexists|].
           by apply (proj1 (Forall_forall _ _) Hnum).
        -- left. by rewrite getitem_lacks_field.
      * apply not_Forall_Exists in HT; [|apply _].
        eapply Exists_impl; [exact HT|]. intros r Hr.
        by rewrite getitem_lacks_field.
    + rewrite where_greater_than_numbers by done. by eexists.
Qed.

Lemma filter_transactions_amount_witness :
  Basics.filter_transactions
    [ {[ "amount" := VInt 50 ]}; {[ "amount" := VInt 5 ]} ] (VInt 10)
  = Ok [ {[ "amount" := VInt 50 ]} ]
  ∧ Basics.filter_transactions [ {[ "amount" := VInt 50 ]}; ∅ ] (VInt 10)
    = Raise KeyError.
Proof.
  split.
  - rewrite (proj1 (filter_transactions_amount _ 10)).
    + vm_compute. reflexivity.
    + apply (bool_decide_unpack _). vm_compute. exact I.
  - apply (proj2 (filter_transactions_amount _ 10)).
    + apply (bool_decide_unpack _). vm_compute. exact I.
    + intros H. apply (bool_decide_pack _) in H. vm_compute in H. exact H.
Defined.

(** *** The email pattern *)

Section regex.
Implicit Types (r : regex) (s : string) (c : ascii).

Lemma string_app_cons c s1 s2 : String c s1 ++ s2 = String c (s1 ++ s2).
Proof. reflexivity. Qed.

Lemma string_app_nil_l s : "" ++ s = s.
Proof. reflexivity. Qed.

Lemma string_app_nil_r s : s ++ "" = s.
Proof.
  induction s as [|c s IH]; [done|]. by rewrite string_app_cons, IH.
Qed.

Lemma string_app_assoc s1 s2 s3 : (s1 ++ s2) ++ s3 = s1 ++ (s2 ++ s3).
Proof.
  induction s1 as [|c s1 IH]; [done|]. by rewrite !string_app_cons, IH.
Qed.

Lemma string_app_nil s1 s2 : s1 ++ s2 = "" → s1 = "" ∧ s2 = "".
Proof. by destruct s1. Qed.

Lemma lang_nil_nullable r s : re_lang r s → s = "" → nullable r = true.
Proof.
  induction 1 as [|p c Hp|r1 r2 s1 s2 H1 IH1 H2 IH2|r1 r2 s H IH|r1 r2 s H IH
                  |r|r s1 s2 H1 IH1 H2 IH2]; intros Hs; cbn; try done.
  - apply string_app_nil in Hs as [-> ->]. by rewrite IH1, IH2.
  - by rewrite IH.
  - rewrite IH by done. apply orb_true_r.
Qed.

Lemma nullable_lang r : nullable r = true ↔ re_lang r "".
Proof.
  split; [|intros H; by eapply lang_nil_nullable].
  induction r as [| |p|r1 IH1 r2 IH2|r1 IH1 r2 IH2|r IH]; cbn; try done.
  - intros _. constructor.
  - intros [H1 H2]%andb_true_iff.
    apply (lang_cat r1 r2 "" ""); auto.
  - intros [H|H]%orb_true_iff; [apply lang_alt_l|apply lang_alt_r]; auto.
  - intros _. constructor.
Qed.

Lemma lang_star_cons_inv r s0 :
  re_lang (Star r) s0 → ∀ c s, s0 = String c s →
  ∃ s1 s2, s = s1 ++ s2 ∧ re_lang r (String c s1) ∧ re_lang (Star r) s2.
Proof.
  intros H. remember (Star r) as r0 eqn:Hr0.
  induction H as [|p c' Hp|r1 r2 s1 s2 H1 IH1 H2 IH2|r1 r2 s' H IH
                  |r1 r2 s' H IH|r'|r' s1 s2 H1 IH1 H2 IH2];
    try discriminate Hr0; intros c s Hs; [discriminate Hs|].
  injection Hr0 as ->. destruct s1 as [|c1 s1].
  - rewrite string_app_nil_l in Hs. by apply IH2.
  - rewrite string_app_cons in Hs. injection Hs as -> <-. by exists s1, s2.
Qed.

Lemma deriv_lang r c s : re_lang (deriv c r) s ↔ re_lang r (String c s).
Proof.
  revert s. induction r as [| |p|r1 IH1 r2 IH2|r1 IH1 r2 IH2|r IH];
    intros s; cbn [deriv].
  - split; inversion 1.
  - split; inversion 1.
  - destruct (p c) eqn:Hp; split; inversion 1; subst.
    + by constructor.
    + constructor.
    + congruence.
  - assert (Hcat : re_lang (Cat (deriv c r1) r2) s
                   → re_lang (Cat r1 r2) (String c s)).
    { inversion 1 as [| |? ? s1 s2 H1 H2| | | |]; subst.
      apply IH1 in H1. by apply (lang_cat r1 r2 (String c s1) s2). }
    assert (Hinv : re_lang (Cat r1 r2) (String c s)
                   → re_lang (Cat (deriv c r1) r2) s
                     ∨ (nullable r1 = true ∧ re_lang (deriv c r2) s)).
    { inversion 1 as [| |? ? s1 s2 H1 H2 Hr Hs| | | |]; subst.
      destruct s1 as [|c1 s1].
      - rewrite string_app_nil_l in Hs.
        right. split; [by apply nullable_lang|]. apply IH2. by rewrite <-Hs.
      - rewrite string_app_cons in Hs.
        injection Hs as -> <-. left. constructor; [by apply IH1|done]. }
    destruct (nullable r1) eqn:Hn; split.
    + inversion 1; subst; [by apply Hcat|].
      apply (lang_cat r1 r2 "" (String c s)); [by apply nullable_lang|].
      by apply IH2.
    + intros [H|[_ H]]%Hinv; [by apply lang_alt_l|by apply lang_alt_r].
    + apply Hcat.
    + by intros [H|[? _]]%Hinv.
  - split.
    + inversion 1; subst; [apply lang_alt_l|apply lang_alt_r];
        [by apply IH1|by apply IH2].
    + inversion 1; subst; [apply lang_alt_l|apply lang_alt_r];
        [by apply IH1|by apply IH2].
  - split.
    + inversion 1 as [| |? ? s1 s2 H1 H2| | | |]; subst.
      apply IH in H1. by apply (lang_star_cons r (String c s1) s2).
    + intros H.
      destruct (lang_star_cons_inv _ _ H c s eq_refl) as (s1 & s2 & -> & H1 & H2).
      constructor; [by apply IH|done].
Qed.

(** [re_match] accepts a text exactly when the expression matches a prefix
    of it. *)
Lemma re_match_lang r s :
  re_match r s = true ↔ ∃ s1 s2, s = s1 ++ s2 ∧ re_lang r s1.
Proof.
  revert r. induction s as [|c s IH]; intros r; cbn [re_match].
  - rewrite orb_false_r, nullable_lang. split.
    + intros H. by exists "", "".
    + intros (s1 & s2 & Hs & H). symmetry in Hs.
      by apply string_app_nil in Hs as [-> ->].
  - rewrite orb_true_iff, nullable_lang, IH. split.
    + intros [H|(s1 & s2 & -> & H)].
      * by exists "", (String c s).
      * exists (String c s1), s2. split; [done|]. by apply deriv_lang.
    + intros (s1 & s2 & Hs & H). destruct s1 as [|c1 s1].
      * by left.
      * rewrite string_app_cons in Hs. injection Hs as <- ->. right.
        exists s1, s2. split; [done|]. by apply deriv_lang.
Qed.

Lemma lang_star_not_at s :
  re_lang (Star Cleaning.not_at) s ↔ no_at s = true.
Proof.
  split.
  - intros H. remember (Star Cleaning.not_at) as r0 eqn:Hr0.
    induction H as [|p c' Hp|r1 r2 s1 s2 H1 IH1 H2 IH2|r1 r2 s' H IH
                    |r1 r2 s' H IH|r'|r' s1 s2 H1 IH1 H2 IH2];
      try discriminate Hr0; [done|].
    injection Hr0 as ->. inversion H1 as [|p c Hp| | | | |]; subst.
    rewrite string_app_cons, string_app_nil_l. cbn [no_at].
    cbn beta in Hp. rewrite Hp. by apply IH2.
  - induction s as [|c s IH]; cbn; [intros _; constructor|].
    intros [Hc Hs]%andb_true_iff.
    apply (lang_star_cons _ (String c "") s); [by constructor|by apply IH].
Qed.

Lemma lang_plus_not_at s :
  re_lang (Plus Cleaning.not_at) s ↔ s ≠ "" ∧ no_at s = true.
Proof.
  unfold Plus. split.
  - inversion 1 as [| |? ? s1 s2 H1 H2| | | |]; subst.
    inversion H1 as [|p c Hp| | | | |]; subst.
    rewrite string_app_cons, string_app_nil_l. cbn [no_at].
    cbn beta in Hp. rewrite Hp.
    split; [done|]. by apply lang_star_not_at.
  - destruct s as [|c s]; [by intros [? _]|].
    cbn. intros [_ [Hc Hs]%andb_true_iff].
    apply (lang_cat _ _ (String c "") s); [by constructor|].
    by apply lang_star_not_at.
Qed.

Lemma lang_email_pattern s :
  re_lang Cleaning.email_pattern s
  ↔ ∃ u d t, s = u ++ "@" ++ d ++ "." ++ t
             ∧ (u ≠ "" ∧ no_at u = true) ∧ (d ≠ "" ∧ no_at d = true)
             ∧ (t ≠ "" ∧ no_at t = true).
Proof.
  unfold Cleaning.email_pattern. split.
  - inversion 1 as [| |? ? u s2 Hu H2| | | |]; subst.
    inversion H2 as [| |? ? a s3 Ha H3| | | |]; subst.
    inversion Ha as [|p c Hp| | | | |]; subst.
    inversion H3 as [| |? ? d s4 Hd H4| | | |]; subst.
    inversion H4 as [| |? ? b t Hb Ht| | | |]; subst.
    inversion Hb as [|p' c' Hp'| | | | |]; subst.
    apply Ascii.eqb_eq in Hp as <-. apply Ascii.eqb_eq in Hp' as <-.
    exists u, d, t. split; [done|].
    by rewrite <-!lang_plus_not_at.
  - intros (u & d & t & -> & Hu & Hd & Ht).
    apply lang_plus_not_at in Hu, Hd, Ht.
    constructor; [done|].
    apply (lang_cat _ _ "@" (d ++ "." ++ t)); [by constructor|].
    constructor; [done|].
    apply (lang_cat _ _ "." t); [by constructor|done].
Qed.

End regex.

(** X29: [validate_email] accepts a text exactly when the text starts with a
    non-empty part without ["@"], then ["@"], then a non-empty part without
    ["@"], then ["."], then a character other than ["@"]; whatever follows
    is not looked at.  So a text without ["@"], or starting with ["@"], is
    rejected, and a text that goes on after a match is accepted. *)
Theorem validate_email_prefix (s : string) :
  (Cleaning.validate_email (VStr s) = Ok true
   ↔ ∃ u d c rest,
       s = u ++ "@" ++ d ++ "." ++ String c rest
       ∧ u ≠ "" ∧ no_at u = true ∧ d ≠ "" ∧ no_at d = true
       ∧ c ≠ "@"%char)
  ∧ (no_at s = true → Cleaning.validate_email (VStr s) = Ok false)
  ∧ Cleaning.validate_email (VStr ("@" ++ s)) = Ok false.
Proof.
  assert (Hiff : ∀ s', Cleaning.validate_email (VStr s') = Ok true
   ↔ ∃ u d c rest,
       s' = u ++ "@" ++ d ++ "." ++ String c rest
       ∧ u ≠ "" ∧ no_at u = true ∧ d ≠ "" ∧ no_at d = true
       ∧ c ≠ "@"%char).
  { intros s'. unfold Cleaning.validate_email, re_match_call. split.
    - intros [= (s1 & s2 & -> & H)%re_match_lang].
      apply lang_email_pattern in H
        as (u & d & t & -> & [Hu Hua] & [Hd Hda] & [Ht Hta]).
      destruct t as [|c t]; [done|]. cbn in Hta.
      apply andb_true_iff in Hta as [Hc%negb_true_iff%Ascii.eqb_neq _].
      exists u, d, c, (t ++ s2). repeat split; try done.
      rewrite !string_app_assoc. reflexivity.
    - intros (u & d & c & rest & -> & Hu & Hua & Hd & Hda & Hc).
      f_equal. apply re_match_lang.
      exists (u ++ "@" ++ d ++ "." ++ String c ""), rest. split.
      { rewrite !string_app_assoc. reflexivity. }
      apply lang_email_pattern. exists u, d, (String c "").
      repeat split; try done. cbn.
      by apply Ascii.eqb_neq in Hc as ->. }
  assert (Hfalse : ∀ s', Cleaning.validate_email (VStr s') ≠ Ok true →
                         Cleaning.validate_email (VStr s') = Ok false).
  { intros s'. unfold Cleaning.validate_email, re_match_call.
    by destruct (re_match _ _). }
  assert (Hno : ∀ u rest, no_at (u ++ "@" ++ rest) = false).
  { intros u rest. induction u as [|c u IH]; [done|].
    rewrite string_app_cons. cbn [no_at]. rewrite IH. apply andb_false_r. }
  split; [apply Hiff|]. split.
  - intros Hs. apply Hfalse.
    intros (u & d & c & rest & -> & _)%Hiff. by rewrite Hno in Hs.
  - apply Hfalse.
    intros (u & d & c & rest & Hs & Hu & Hua & _)%Hiff.
    destruct u as [|c' u]; [done|].
    rewrite !string_app_cons, string_app_nil_l in Hs. injection Hs as <- _.
    cbn [no_at] in Hua. discriminate Hua.
Qed.

Lemma validate_email_prefix_witness :
  Cleaning.validate_email (VStr "a@b.c@@") = Ok true
  ∧ Cleaning.validate_email (VStr "ab.c") = Ok false.
Proof.
  split.
  - apply (proj1 (validate_email_prefix "a@b.c@@")).
    exists "a", "b", "c"%char, "@@". by repeat split.
  - by apply (proj1 (proj2 (validate_email_prefix "ab.c"))).
Defined.

(** *** Dates *)

Section dates.
Implicit Types (y m d n : Z) (c : ascii) (s rest : string).

Lemma digit_char_digit n :
  0 ≤ n ≤ 9 → is_digit (digit_char n) = true ∧ digit (digit_char n) = n.
Proof.
  intros Hn.
  assert (n = 0 ∨ n = 1 ∨ n = 2 ∨ n = 3 ∨ n = 4 ∨ n = 5 ∨ n = 6 ∨ n = 7
          ∨ n = 8 ∨ n = 9) as Hcases by lia.
  repeat (destruct Hcases as [->|Hcases]; [by vm_compute|]).
  by subst.
Qed.

Lemma digit_char_ascii n : 0 ≤ n ≤ 9 → is_ascii (digit_char n) = true.
Proof.
  intros Hn.
  assert (n = 0 ∨ n = 1 ∨ n = 2 ∨ n = 3 ∨ n = 4 ∨ n = 5 ∨ n = 6 ∨ n = 7
          ∨ n = 8 ∨ n = 9) as Hcases by lia.
  repeat (destruct Hcases as [->|Hcases]; [by vm_compute|]).
  by subst.
Qed.

Lemma two_digits_ascii n : 0 ≤ n ≤ 99 → is_ascii_text (two_digits n) = true.
Proof.
  intros Hn. unfold two_digits. cbn [is_ascii_text].
  rewrite !digit_char_ascii; [done| |];
    Z.to_euclidean_division_equations; lia.
Qed.

Lemma is_ascii_text_app s1 s2 :
  is_ascii_text (s1 ++ s2) = is_ascii_text s1 && is_ascii_text s2.
Proof.
  induction s1 as [|c s1 IH]; [by rewrite string_app_nil_l|].
  rewrite string_app_cons. cbn [is_ascii_text]. rewrite IH.
  by rewrite andb_assoc.
Qed.

Lemma iso_date_ascii y m d :
  0 ≤ y ≤ 9999 → 0 ≤ m ≤ 99 → 0 ≤ d ≤ 99 →
  is_ascii_text (iso_date y m d) = true.
Proof.
  intros Hy Hm Hd. unfold iso_date, four_digits.
  rewrite !is_ascii_text_app. cbn [is_ascii_text].
  rewrite !two_digits_ascii, !digit_char_ascii; [done|..];
    Z.to_euclidean_division_equations; lia.
Qed.

Lemma is_digit_range c : is_digit c = true → 0 ≤ digit c ≤ 9.
Proof.
  unfold is_digit, digit. intros [H1 H2]%andb_true_iff.
  apply N.leb_le in H1, H2. lia.
Qed.

Lemma in_range_bounds lo hi c :
  in_range lo hi c = true → lo ≤ digit c ≤ hi.
Proof.
  unfold in_range. intros [[_ H1]%andb_true_iff H2]%andb_true_iff. lia.
Qed.

Lemma match_Y_four_digits y rest :
  0 ≤ y ≤ 9999 → match_Y (four_digits y ++ rest) = Some (y, rest).
Proof.
  intros Hy. unfold four_digits, two_digits.
  rewrite !string_app_cons, string_app_nil_l. cbn [match_Y].
  destruct (digit_char_digit (y `div` 1000)) as [-> ->];
    [Z.to_euclidean_division_equations; lia|].
  destruct (digit_char_digit ((y `div` 100) `mod` 10)) as [-> ->];
    [Z.to_euclidean_division_equations; lia|].
  destruct (digit_char_digit ((y `mod` 100) `div` 10)) as [-> ->];
    [Z.to_euclidean_division_equations; lia|].
  destruct (digit_char_digit ((y `mod` 100) `mod` 10)) as [-> ->];
    [Z.to_euclidean_division_equations; lia|].
  cbn [andb]. do 2 f_equal.
  Z.to_euclidean_division_equations; lia.
Qed.

Lemma match_m_two_digits m rest :
  1 ≤ m ≤ 12 → match_m (two_digits m ++ rest) = Some (m, rest).
Proof.
  intros Hm.
  assert (m = 1 ∨ m = 2 ∨ m = 3 ∨ m = 4 ∨ m = 5 ∨ m = 6 ∨ m = 7 ∨ m = 8
          ∨ m = 9 ∨ m = 10 ∨ m = 11 ∨ m = 12) as Hcases by lia.
  repeat (destruct Hcases as [->|Hcases]; [reflexivity|]).
  by subst.
Qed.

Lemma match_d_two_digits d rest :
  1 ≤ d ≤ 31 → match_d (two_digits d ++ rest) = Some (d, rest).
Proof.
  intros Hd.
  assert (d = 1 ∨ d = 2 ∨ d = 3 ∨ d = 4 ∨ d = 5 ∨ d = 6 ∨ d = 7 ∨ d = 8
          ∨ d = 9 ∨ d = 10 ∨ d = 11 ∨ d = 12 ∨ d = 13 ∨ d = 14 ∨ d = 15
          ∨ d = 16 ∨ d = 17 ∨ d = 18 ∨ d = 19 ∨ d = 20 ∨ d = 21 ∨ d = 22
          ∨ d = 23 ∨ d = 24 ∨ d = 25 ∨ d = 26 ∨ d = 27 ∨ d = 28 ∨ d = 29
          ∨ d = 30 ∨ d = 31) as Hcases by lia.
  repeat (destruct Hcases as [->|Hcases]; [reflexivity|]).
  by subst.
Qed.

Lemma days_in_month_bounds y m : 28 ≤ days_in_month y m ≤ 31.
Proof.
  unfold days_in_month.
  destruct (m =? 2); [destruct (is_leap y); lia|].
  destruct (_ || _); lia.
Qed.

Lemma match_Y_range s y rest : match_Y s = Some (y, rest) → 0 ≤ y ≤ 9999.
Proof.
  destruct s as [|a [|b [|c [|d s]]]]; try done. cbn [match_Y].
  destruct (is_digit a) eqn:Ha; [|done].
  destruct (is_digit b) eqn:Hb; [|done].
  destruct (is_digit c) eqn:Hc; [|done].
  destruct (is_digit d) eqn:Hd; [|done]. cbn [andb]. intros [= <- _].
  apply is_digit_range in Ha, Hb, Hc, Hd. lia.
Qed.

Lemma match_m_range s m rest : match_m s = Some (m, rest) → 1 ≤ m ≤ 12.
Proof.
  destruct s as [|a [|b s]]; [done| |]; cbn [match_m].
  - destruct (in_range 1 9 a) eqn:Ha; [|done]. intros [= <- _].
    apply in_range_bounds in Ha. lia.
  - destruct (_ && in_range 0 2 b) eqn:H1.
    { intros [= <- _]. apply andb_true_iff in H1 as [_ H1].
      apply in_range_bounds in H1. lia. }
    destruct (_ && in_range 1 9 b) eqn:H2.
    { intros [= <- _]. apply andb_true_iff in H2 as [_ H2].
      apply in_range_bounds in H2. lia. }
    destruct (in_range 1 9 a) eqn:Ha; [|done]. intros [= <- _].
    apply in_range_bounds in Ha. lia.
Qed.

End dates.

(** X30: [validate_date_format] and the calendar, on ASCII text: an ASCII
    text is accepted only if [strptime] reads a date of the calendar from it
    (a year from 1 to 9999, a month from 1 to 12, a day of that month,
    February 29 in leap years only), and every date of the calendar written
    as [YYYY-MM-DD] with leading zeros is accepted and read back as
    itself. *)
Theorem validate_date_format_calendar
    (parse_other : string → option (Z * Z * Z)) (y m d : Z) (s : string) :
  (is_ascii_text s = true →
   Cleaning.validate_date_format parse_other (VStr s) = Ok true →
     ∃ y' m' d', datetime_strptime parse_other (VStr s) = Ok (y', m', d')
                 ∧ valid_date y' m' d')
  ∧ (valid_date y m d →
     is_ascii_text (iso_date y m d) = true
     ∧ datetime_strptime parse_other (VStr (iso_date y m d)) = Ok (y, m, d)
     ∧ Cleaning.validate_date_format parse_other (VStr (iso_date y m d))
       = Ok true).
Proof.
  split.
  - intros Hs. rewrite validate_date_format_text.
    unfold datetime_strptime. rewrite Hs.
    destruct (strptime_ymd s) as [[[y' m'] d']|] eqn:E; [|done]. intros _.
    exists y', m', d'. split; [done|].
    unfold strptime_ymd in E.
    destruct (match_Y s) as [[y0 s1]|] eqn:HY; [|done]. cbn in E.
    destruct (match_dash s1) as [s2|]; [|done]. cbn in E.
    destruct (match_m s2) as [[m0 s3]|] eqn:Hm; [|done]. cbn in E.
    destruct (match_dash s3) as [s4|]; [|done]. cbn in E.
    destruct (match_d s4) as [[d0 s5]|]; [|done]. cbn in E.
    destruct (negb _); [done|].
    destruct (_ && _) eqn:Hvalid; [|done]. injection E as -> -> ->.
    apply andb_true_iff in Hvalid as [[Hy Hd1]%andb_true_iff Hd2].
    apply match_Y_range in HY. apply match_m_range in Hm.
    unfold valid_date. lia.
  - intros (Hy & Hm & Hd).
    pose proof (days_in_month_bounds y m) as Hdays.
    assert (is_ascii_text (iso_date y m d) = true) as Hascii
      by (apply iso_date_ascii; lia).
    assert (datetime_strptime parse_other (VStr (iso_date y m d))
            = Ok (y, m, d)) as Hparse.
    { unfold datetime_strptime. rewrite Hascii.
      unfold strptime_ymd, iso_date.
      rewrite match_Y_four_digits by lia. cbn [mbind option_bind].
      rewrite string_app_cons, string_app_nil_l.
      cbn [match_dash Ascii.eqb Bool.eqb]. cbn [mbind option_bind].
      rewrite match_m_two_digits by lia. cbn [mbind option_bind].
      rewrite string_app_cons, string_app_nil_l.
      cbn [match_dash Ascii.eqb Bool.eqb]. cbn [mbind option_bind].
      rewrite <-(string_app_nil_r (two_digits d)).
      rewrite match_d_two_digits by lia. cbn [mbind option_bind].
      cbn [String.eqb negb].
      destruct (Z.leb_spec 1 y); [|lia]. destruct (Z.leb_spec 1 d); [|lia].
      destruct (Z.leb_spec d (days_in_month y m)); [|lia]. done. }
    split; [done|]. split; [done|].
    by rewrite validate_date_format_text, Hparse.
Qed.

Lemma validate_date_format_calendar_witness :
  Cleaning.validate_date_format (λ _, None) (VStr "2024-02-29") = Ok true
  ∧ datetime_strptime (λ _, None) (VStr "0987-12-01") = Ok (987, 12, 1).
Proof.
  split.
  - apply (proj2 (validate_date_format_calendar (λ _, None) 2024 2 29 "")).
    unfold valid_date. vm_compute. intuition discriminate.
  - apply (proj2 (validate_date_format_calendar (λ _, None) 987 12 1 "")).
    unfold valid_date. vm_compute. intuition discriminate.
Defined.
